(** * openclaw-mc-plugin: the behavior scheduler, the session manager,
      the action facade and the chat-command handler

    A shallow embedding of [src/autonomous.ts], of the two [mc-bot.ts]
    files of the repository and of [chat-commands.ts].  JavaScript module
    state becomes a record that every operation takes and returns; a
    [throw] becomes the [Throw] constructor of [Result]; objects that the
    source shares by reference (a behavior's run-state, captured by the
    timer callback and stored in [behaviorStates]) live in an explicit
    heap. *)

From Stdlib Require Import ZArith QArith Qround Lia.
From stdpp Require Import base option list gmap strings pretty.

Open Scope string_scope.

#[local] Set Warnings "-register-all".

(* ------------------------------------------------------------------ *)
(** ** JavaScript values and results *)

(** The values a behavior configuration holds ([Record<string, unknown>]).
    Numbers are kept as integers. *)
Inductive JsVal : Type :=
  | JUndefined
  | JNull
  | JBool (b : bool)
  | JNum (n : Z)
  | JStr (s : string)
  | JArr (items : list JsVal)
  | JObj (fields : list (string * JsVal)).

(** [!v] is [negb (truthy v)]. *)
Definition truthy (v : JsVal) : bool :=
  match v with
  | JUndefined | JNull => false
  | JBool b => b
  | JNum n => negb (n =? 0)%Z
  | JStr EmptyString => false
  | JStr _ | JArr _ | JObj _ => true
  end.

(** A plain object used as a string-keyed record. *)
Abbreviation Config := (gmap string JsVal).

(** [obj.key], which is [undefined] for a missing key. *)
Definition getProp (o : Config) (key : string) : JsVal :=
  default JUndefined (o !! key).

(** [Object.assign(target, source)] and the spread [{...target, ...source}]:
    the keys of [source] win. *)
Definition assign (target source : Config) : Config := source ∪ target.

(** A call either returns or throws an [Error] with a message. *)
Inductive Result (A : Type) : Type :=
  | Ok (a : A)
  | Throw (message : string).
Arguments Ok {A} a.
Arguments Throw {A} message.

(** The double-quote character, code 34. *)
Definition dq : string :=
  Eval cbv in String (Ascii.ascii_of_nat 34) EmptyString.

(** The template [`"${s}"`]. *)
Definition quoted (s : string) : string := dq +:+ s +:+ dq.

(* ------------------------------------------------------------------ *)
(** ** Insertion-ordered maps

    A JavaScript [Map] iterates in insertion order; [activeTimers] is
    iterated, so its order is kept. *)
Section OrderedMap.
Context {V : Type}.

Fixpoint omap_get (k : string) (m : list (string * V)) : option V :=
  match m with
  | [] => None
  | (k', v) :: m' => if String.eqb k' k then Some v else omap_get k m'
  end.

Definition omap_has (k : string) (m : list (string * V)) : bool :=
  match omap_get k m with Some _ => true | None => false end.

(** [m.set(k, v)]: an existing key keeps its place, a new one goes last. *)
Fixpoint omap_set (k : string) (v : V) (m : list (string * V)) : list (string * V) :=
  match m with
  | [] => [(k, v)]
  | (k', v') :: m' =>
      if String.eqb k' k then (k', v) :: m' else (k', v') :: omap_set k v m'
  end.

Fixpoint omap_delete (k : string) (m : list (string * V)) : list (string * V) :=
  match m with
  | [] => []
  | (k', v') :: m' =>
      if String.eqb k' k then omap_delete k m' else (k', v') :: omap_delete k m'
  end.

Definition omap_keys (m : list (string * V)) : list string := m.*1.
End OrderedMap.

(* ------------------------------------------------------------------ *)
(** ** The registry ([behaviorDefs]) *)

Record BehaviorDef : Type := {
  name : string;
  description : string;
  defaultConfig : Config;
  interval : Z
}.

Definition list_to_config (l : list (string * JsVal)) : Config := list_to_map l.

Definition auto_eat_def : BehaviorDef := {|
  name := "auto_eat";
  description := "Automatically eat food when hunger drops below a threshold";
  defaultConfig := list_to_config [("threshold", JNum 14)];
  interval := 2000 |}.

Definition guard_def : BehaviorDef := {|
  name := "guard";
  description := "Attack hostile mobs that come within a radius";
  defaultConfig := list_to_config [("radius", JNum 16)];
  interval := 500 |}.

Definition auto_collect_def : BehaviorDef := {|
  name := "auto_collect";
  description := "Continuously find and mine a specific block type nearby";
  defaultConfig :=
    list_to_config [("block", JStr "oak_log"); ("radius", JNum 32); ("pauseMs", JNum 1000)];
  interval := 3000 |}.

Definition auto_follow_def : BehaviorDef := {|
  name := "auto_follow";
  description := "Continuously follow a specific player";
  defaultConfig := list_to_config [("player", JStr EmptyString); ("distance", JNum 3)];
  interval := 1000 |}.

Definition patrol_def : BehaviorDef := {|
  name := "patrol";
  description := "Walk between a list of waypoints continuously";
  defaultConfig :=
    list_to_config [("waypoints", JArr []); ("currentIndex", JNum 0); ("waitMs", JNum 2000)];
  interval := 3000 |}.

(** The array after the five [behaviorDefs.push] calls of the module. *)
Definition behaviorDefs : list BehaviorDef :=
  [auto_eat_def; guard_def; auto_collect_def; auto_follow_def; patrol_def].

(** [behaviorDefs.find((d) => d.name === n)] *)
Definition findDef (n : string) : option BehaviorDef :=
  find (λ d, String.eqb (name d) n) behaviorDefs.

(* ------------------------------------------------------------------ *)
(** ** Scheduler state *)

(** A session handle (the mineflayer [Bot] object) is known by identity. *)
Definition Bot : Type := nat.

Inductive Level : Type := Info | Warn | Error.

(** The closure [setInterval] is given in [startBehavior]: it captures
    [name], [def] and the run-state object [state] (a heap location).
    What [setInterval] returns is a Node [Timeout] object, known here by
    a number; as an object it is truthy whatever the number. *)
Record Timer : Type := {
  tm_name : string;
  tm_state : nat;
  tm_interval : Z
}.

Record Sched : Type := {
  _bot : option Bot;
  (** [activeTimers]: name to timer handle *)
  activeTimers : list (string * nat);
  (** [behaviorStates]: name to the run-state object *)
  behaviorStates : gmap string nat;
  (** the run-state objects *)
  heap : gmap nat Config;
  (** the interval timers the runtime holds, by handle, oldest first *)
  live : list (nat * Timer);
  next_timer : nat;
  next_loc : nat;
  (** what was written through [_logger] *)
  logged : list (Level * string)
}.

Definition initial : Sched := {|
  _bot := None; activeTimers := []; behaviorStates := ∅; heap := ∅;
  live := []; next_timer := 0; next_loc := 0; logged := [] |}.

Definition log (lvl : Level) (msg : string) (s : Sched) : Sched :=
  {| _bot := _bot s; activeTimers := activeTimers s;
     behaviorStates := behaviorStates s; heap := heap s; live := live s;
     next_timer := next_timer s; next_loc := next_loc s;
     logged := logged s ++ [(lvl, msg)] |}.

Definition set_heap (h : gmap nat Config) (s : Sched) : Sched :=
  {| _bot := _bot s; activeTimers := activeTimers s;
     behaviorStates := behaviorStates s; heap := h; live := live s;
     next_timer := next_timer s; next_loc := next_loc s;
     logged := logged s |}.

Definition set_bot (b : option Bot) (s : Sched) : Sched :=
  {| _bot := b; activeTimers := activeTimers s;
     behaviorStates := behaviorStates s; heap := heap s; live := live s;
     next_timer := next_timer s; next_loc := next_loc s;
     logged := logged s |}.

(** [initAutonomous(bot, logger)] *)
Definition initAutonomous (b : Bot) (s : Sched) : Sched := set_bot (Some b) s.

(** [clearInterval(timer)] *)
Definition clearInterval (timer : nat) (l : list (nat * Timer)) : list (nat * Timer) :=
  filter (λ p, p.1 ≠ timer) l.

(** [startBehavior(name, configOverrides)]; an absent [configOverrides]
    is [None]. *)
Definition startBehavior (n : string) (configOverrides : option Config) (s : Sched)
  : Result string * Sched :=
  match _bot s with
  | None => (Throw "Bot not connected.", s)
  | Some _ =>
    match findDef n with
    | None =>
        (Throw ("Unknown behavior: " +:+ n +:+ ". Available: "
                +:+ String.concat ", " (map name behaviorDefs)), s)
    | Some def =>
      if omap_has n (activeTimers s) then
        match configOverrides with
        | Some ov =>
            match behaviorStates s !! n with
            | Some l =>
                (Ok ("Behavior " +:+ quoted n +:+ " config updated."),
                 set_heap (alter (λ state, assign state ov) l (heap s)) s)
            | None =>
                (Throw "Cannot convert undefined or null to object", s)
            end
        | None => (Ok ("Behavior " +:+ quoted n +:+ " is already running."), s)
        end
      else
        let state : Config :=
          assign (assign {[ "enabled" := JBool true ]} (defaultConfig def))
                 (default ∅ configOverrides) in
        let l := next_loc s in
        let timer := next_timer s in
        (Ok ("Behavior " +:+ quoted n +:+ " started."),
         log Info ("[Auto] Started behavior: " +:+ n)
           {| _bot := _bot s;
              activeTimers := omap_set n timer (activeTimers s);
              behaviorStates := <[n := l]> (behaviorStates s);
              heap := <[l := state]> (heap s);
              live := live s ++ [(timer, {| tm_name := n; tm_state := l;
                                            tm_interval := interval def |})];
              next_timer := S timer;
              next_loc := S l;
              logged := logged s |})
    end
  end.

(** [stopBehavior(name)] *)
Definition stopBehavior (n : string) (s : Sched) : Result string * Sched :=
  match omap_get n (activeTimers s) with
  | None => (Ok ("Behavior " +:+ quoted n +:+ " is not running."), s)
  | Some timer =>
      let h :=
        match behaviorStates s !! n with
        | Some l => alter (λ state, <["enabled" := JBool false]> state) l (heap s)
        | None => heap s
        end in
      (Ok ("Behavior " +:+ quoted n +:+ " stopped."),
       log Info ("[Auto] Stopped behavior: " +:+ n)
         {| _bot := _bot s;
            activeTimers := omap_delete n (activeTimers s);
            behaviorStates := behaviorStates s;
            heap := h;
            live := clearInterval timer (live s);
            next_timer := next_timer s;
            next_loc := next_loc s;
            logged := logged s |})
  end.

(** One entry of what [listBehaviors] returns. *)
Record Listing : Type := {
  l_name : string;
  l_description : string;
  running : bool;
  config : Config
}.

(** [listBehaviors()] *)
Definition listBehaviors (s : Sched) : list Listing :=
  map (λ def,
         {| l_name := name def;
            l_description := description def;
            running := omap_has (name def) (activeTimers s);
            config :=
              match behaviorStates s !! name def with
              | Some l => default ∅ (heap s !! l)
              | None => defaultConfig def
              end |})
      behaviorDefs.

(** [stopAllBehaviors()]: the names are copied out of the map first. *)
Definition stopAllBehaviors (s : Sched) : Result string * Sched :=
  let names := omap_keys (activeTimers s) in
  let s' := foldl (λ acc n, (stopBehavior n acc).2) s names in
  (Ok (if bool_decide (0 < length names)
       then "Stopped: " +:+ String.concat ", " names
       else "No behaviors were running."), s').

(** The loop of [shutdownAutonomous], [for (const [name] of activeTimers)
    stopBehavior(name)].  A [Map] iterator is live: it stands at a position
    in the entry list, and when the body removes the entry it stands on,
    the following entry takes that position.  [cursor] is the position;
    the loop runs at most once per entry present at its start. *)
Fixpoint shutdown_loop (fuel cursor : nat) (s : Sched) : Sched :=
  match fuel with
  | 0 => s
  | S fuel' =>
      match activeTimers s !! cursor with
      | None => s
      | Some (n, _) =>
          let s' := (stopBehavior n s).2 in
          shutdown_loop fuel'
            (if omap_has n (activeTimers s') then S cursor else cursor) s'
      end
  end.

(** [shutdownAutonomous()] *)
Definition shutdownAutonomous (s : Sched) : Sched :=
  set_bot None (shutdown_loop (length (activeTimers s)) 0 s).

(* ------------------------------------------------------------------ *)
(** ** Timer firings and runs of the scheduler *)

Section Firing.
(** What a tick reads from the game at the moment it runs. *)
Context {World : Type}.

(** [def.tick(bot, config, log)] for the behavior of the given name: the
    run-state object as the tick leaves it, and the message of the
    [Error] it threw or rejected with, if it failed.  What a tick does
    between two suspension points is taken as one step. *)
Variable tick : string → Bot → Config → World → Config * option string.

(** The [async] callback given to [setInterval]. *)
Definition timer_callback (t : Timer) (w : World) (s : Sched) : Sched :=
  match _bot s with
  | None => s
  | Some b =>
      match heap s !! tm_state t with
      | None => s
      | Some state =>
          if negb (truthy (getProp state "enabled")) then s
          else
            let '(state', failure) := tick (tm_name t) b state w in
            let s' := set_heap (<[tm_state t := state']> (heap s)) s in
            match failure with
            | None => s'
            | Some message =>
                log Warn ("[Auto:" +:+ tm_name t +:+ "] " +:+ message) s'
            end
      end
  end.

(** The runtime fires only timers it still holds. *)
Definition fire (timer : nat) (w : World) (s : Sched) : Sched :=
  match list_find (λ p, p.1 = timer) (live s) with
  | Some (_, (_, t)) => timer_callback t w s
  | None => s
  end.

(** Whether this firing calls the tick function. *)
Definition fire_ticks (timer : nat) (s : Sched) : bool :=
  match list_find (λ p, p.1 = timer) (live s), _bot s with
  | Some (_, (_, t)), Some _ =>
      match heap s !! tm_state t with
      | Some state => truthy (getProp state "enabled")
      | None => false
      end
  | _, _ => false
  end.

(** The calls and events that reach the scheduler module. *)
Inductive Op : Type :=
  | OpInit (b : Bot)
  | OpShutdown
  | OpStart (n : string) (configOverrides : option Config)
  | OpStop (n : string)
  | OpStopAll
  | OpList
  | OpFire (timer : nat) (w : World).

Definition run_op (o : Op) (s : Sched) : Sched :=
  match o with
  | OpInit b => initAutonomous b s
  | OpShutdown => shutdownAutonomous s
  | OpStart n ov => (startBehavior n ov s).2
  | OpStop n => (stopBehavior n s).2
  | OpStopAll => (stopAllBehaviors s).2
  | OpList => s
  | OpFire timer w => fire timer w s
  end.

Definition run_ops (ops : list Op) (s : Sched) : Sched :=
  foldl (λ acc o, run_op o acc) s ops.

(** The live timers that belong to behavior [n]. *)
Definition timers_of (n : string) (s : Sched) : list (nat * Timer) :=
  filter (λ p, tm_name p.2 = n) (live s).

(** A call other than [initAutonomous]. *)
Definition not_init (o : Op) : Prop :=
  match o with OpInit _ => False | _ => True end.

End Firing.

(* ------------------------------------------------------------------ *)
(** ** The session manager ([mc-bot.ts]) *)

Inductive BotStatus : Type := disconnected | connecting | connected.

Record McConfig : Type := {
  host : string;
  port : Z;
  username : string;
  version : string
}.

(** What [snapshot()] returns.  The six telemetry fields are read off the
    bot object, so the record keeps the bot they were read from; [None]
    stands for the zeroed record (health 0, food 0, position null,
    dimension null, experience 0, gameMode unknown). *)
Record BotState : Type := {
  status : BotStatus;
  telemetry : option Bot
}.

(** The promise [connect] returns: already settled when the call returns,
    or waiting for the events of the bot the call created. *)
Inductive Promise : Type :=
  | Settled (r : Result BotState)
  | Pending (b : Bot).

(** The module variables of [mc-bot.ts], and what the process holds of
    mineflayer: the bots [createBot] returned, and their listeners. *)
Record Conn : Type := {
  bot : option Bot;
  currentStatus : BotStatus;
  (** every bot [mineflayer.createBot] has returned, oldest first *)
  created : list (Bot * McConfig);
  (** the bots whose [once("spawn")] listener has not run yet *)
  spawn_armed : list Bot;
  (** the bots on which [quit()] was called *)
  quitted : list Bot;
  (** how the promise of the [connect] call that created a bot was settled *)
  settled : list (Bot * Result BotState);
  mc_logged : list (Level * string)
}.

Record Sys : Type := { mc : Conn; sched : Sched }.

Definition mc_initial : Conn := {|
  bot := None; currentStatus := disconnected; created := []; spawn_armed := [];
  quitted := []; settled := []; mc_logged := [] |}.

Definition sys_initial : Sys := {| mc := mc_initial; sched := initial |}.

Definition mc_log (lvl : Level) (msg : string) (c : Conn) : Conn :=
  {| bot := bot c; currentStatus := currentStatus c; created := created c;
     spawn_armed := spawn_armed c; quitted := quitted c; settled := settled c;
     mc_logged := mc_logged c ++ [(lvl, msg)] |}.

Definition set_session (b : option Bot) (st : BotStatus) (c : Conn) : Conn :=
  {| bot := b; currentStatus := st; created := created c;
     spawn_armed := spawn_armed c; quitted := quitted c; settled := settled c;
     mc_logged := mc_logged c |}.

(** [resolve(v)] or [reject(e)] on the promise tied to bot [b]; a promise
    settles once. *)
Definition settle (b : Bot) (r : Result BotState) (c : Conn) : Conn :=
  {| bot := bot c; currentStatus := currentStatus c; created := created c;
     spawn_armed := spawn_armed c; quitted := quitted c;
     settled := if bool_decide (b ∈ (settled c).*1) then settled c
                else settled c ++ [(b, r)];
     mc_logged := mc_logged c |}.

(** [snapshot()] *)
Definition snapshot (c : Conn) : BotState :=
  match bot c with
  | None => {| status := disconnected; telemetry := None |}
  | Some b => {| status := currentStatus c; telemetry := Some b |}
  end.

(** [getBotOrThrow()] *)
Definition getBotOrThrow (c : Conn) : Result Bot :=
  match bot c with
  | None => Throw "Minecraft bot is not connected. Use minecraft_connect first."
  | Some b => Ok b
  end.

(** The username a created bot carries. *)
Definition bot_username (b : Bot) (c : Conn) : string :=
  match list_find (λ p, p.1 = b) (created c) with
  | Some (_, (_, cfg)) => username cfg
  | None => EmptyString
  end.

(** The part of [connect] that runs when [bot] is null: the log line,
    [mineflayer.createBot], and the four listeners.  It is the same in both
    files; the listeners differ and are given below. *)
Definition create_session (cfg : McConfig) (c : Conn) : Bot * Conn :=
  let b := length (created c) in
  (b,
   {| bot := bot c; currentStatus := connecting;
      created := created c ++ [(b, cfg)];
      spawn_armed := spawn_armed c ++ [b];
      quitted := quitted c; settled := settled c;
      mc_logged := mc_logged c ++
        [(Info, "[MC] Connecting to " +:+ host cfg +:+ ":" +:+ pretty (port cfg)
                +:+ " as " +:+ username cfg +:+ " (v" +:+ version cfg +:+ ")...")] |}).

Definition disarm_spawn (b : Bot) (c : Conn) : Conn :=
  {| bot := bot c; currentStatus := currentStatus c; created := created c;
     spawn_armed := filter (λ b', b' ≠ b) (spawn_armed c);
     quitted := quitted c; settled := settled c; mc_logged := mc_logged c |}.

Definition quit (b : Bot) (c : Conn) : Conn :=
  {| bot := bot c; currentStatus := currentStatus c; created := created c;
     spawn_armed := spawn_armed c;
     quitted := quitted c ++ [b]; settled := settled c; mc_logged := mc_logged c |}.

(** The [mc-bot.ts] that imports [./autonomous.js]. *)
Module McBot.

(** [connect(cfg)] *)
Definition connect (cfg : McConfig) (s : Sys) : Promise * Sys :=
  match bot (mc s) with
  | Some _ => (Settled (Ok (snapshot (mc s))), s)
  | None =>
      let '(b, c) := create_session cfg (mc s) in
      (Pending b, {| mc := c; sched := sched s |})
  end.

(** [b.once("spawn", ...)]; setting up the pathfinder movements is inside
    a [try] with an empty [catch] and touches nothing modelled here. *)
Definition on_spawn (b : Bot) (s : Sys) : Sys :=
  let c := set_session (Some b) connected (mc s) in
  let c := mc_log Info ("[MC] Bot spawned as " +:+ bot_username b c) c in
  let sc := initAutonomous b (sched s) in
  {| mc := settle b (Ok (snapshot c)) c; sched := sc |}.

(** [b.on("error", ...)] *)
Definition on_error (b : Bot) (message : string) (s : Sys) : Sys :=
  let c := mc_log Error ("[MC] Error: " +:+ message) (mc s) in
  match currentStatus c with
  | connecting =>
      {| mc := settle b (Throw message) (set_session (bot c) disconnected c);
         sched := sched s |}
  | _ => {| mc := c; sched := sched s |}
  end.

(** [b.on("end", ...)] *)
Definition on_end (b : Bot) (reason : string) (s : Sys) : Sys :=
  let c := mc_log Warn ("[MC] Disconnected: " +:+ reason) (mc s) in
  let sc := shutdownAutonomous (sched s) in
  {| mc := set_session None disconnected c; sched := sc |}.

(** [b.on("kicked", ...)] *)
Definition on_kicked (b : Bot) (reason : string) (s : Sys) : Sys :=
  {| mc := mc_log Warn ("[MC] Kicked: " +:+ reason) (mc s); sched := sched s |}.

(** [disconnect()] *)
Definition disconnect (s : Sys) : string * Sys :=
  match bot (mc s) with
  | None => ("Already disconnected.", s)
  | Some b =>
      let sc := shutdownAutonomous (sched s) in
      ("Disconnected.",
       {| mc := set_session None disconnected (quit b (mc s)); sched := sc |})
  end.

End McBot.

(** The [mc-bot.ts] that does not import [./autonomous.js]
    ([src/mc-bot.ts]). *)
Module McBotPlain.

Definition connect (cfg : McConfig) (s : Sys) : Promise * Sys :=
  match bot (mc s) with
  | Some _ => (Settled (Ok (snapshot (mc s))), s)
  | None =>
      let '(b, c) := create_session cfg (mc s) in
      (Pending b, {| mc := c; sched := sched s |})
  end.

Definition on_spawn (b : Bot) (s : Sys) : Sys :=
  let c := set_session (Some b) connected (mc s) in
  let c := mc_log Info ("[MC] Bot spawned as " +:+ bot_username b c) c in
  {| mc := settle b (Ok (snapshot c)) c; sched := sched s |}.

Definition on_error (b : Bot) (message : string) (s : Sys) : Sys :=
  let c := mc_log Error ("[MC] Error: " +:+ message) (mc s) in
  match currentStatus c with
  | connecting =>
      {| mc := settle b (Throw message) (set_session (bot c) disconnected c);
         sched := sched s |}
  | _ => {| mc := c; sched := sched s |}
  end.

Definition on_end (b : Bot) (reason : string) (s : Sys) : Sys :=
  let c := mc_log Warn ("[MC] Disconnected: " +:+ reason) (mc s) in
  {| mc := set_session None disconnected c; sched := sched s |}.

Definition on_kicked (b : Bot) (reason : string) (s : Sys) : Sys :=
  {| mc := mc_log Warn ("[MC] Kicked: " +:+ reason) (mc s); sched := sched s |}.

Definition disconnect (s : Sys) : string * Sys :=
  match bot (mc s) with
  | None => ("Already disconnected.", s)
  | Some b =>
      ("Disconnected.",
       {| mc := set_session None disconnected (quit b (mc s)); sched := sched s |})
  end.

End McBotPlain.

(* ------------------------------------------------------------------ *)
(** ** Runs of the whole process *)

(** Which of the two [mc-bot.ts] files the process is built with. *)
Inductive Build : Type := with_scheduler | plain.

Section Process.
Context {World : Type}.
Variable tick : string → Bot → Config → World → Config * option string.

(** Calls of the exported functions (through the tool adapter or the
    chat commands) and events of the runtime. *)
Inductive Event : Type :=
  | CallConnect (cfg : McConfig)
  | CallDisconnect
  | EvSpawn (b : Bot)
  | EvError (b : Bot) (message : string)
  | EvEnd (b : Bot) (reason : string)
  | EvKicked (b : Bot) (reason : string)
  | CallStart (n : string) (configOverrides : option Config)
  | CallStop (n : string)
  | CallStopAll
  | CallList
  | EvTimer (timer : nat) (w : World).

Definition with_sched (f : Sched → Sched) (s : Sys) : Sys :=
  {| mc := mc s; sched := f (sched s) |}.

Definition is_created (b : Bot) (s : Sys) : bool :=
  bool_decide (b ∈ (created (mc s)).*1).

(** Events on a bot reach the listeners [connect] registered on it; a
    [once] listener runs for the first event only. *)
Definition step (build : Build) (e : Event) (s : Sys) : Sys :=
  match e with
  | CallConnect cfg =>
      match build with
      | with_scheduler => (McBot.connect cfg s).2
      | plain => (McBotPlain.connect cfg s).2
      end
  | CallDisconnect =>
      match build with
      | with_scheduler => (McBot.disconnect s).2
      | plain => (McBotPlain.disconnect s).2
      end
  | EvSpawn b =>
      if bool_decide (b ∈ spawn_armed (mc s)) then
        let s' := {| mc := disarm_spawn b (mc s); sched := sched s |} in
        match build with
        | with_scheduler => McBot.on_spawn b s'
        | plain => McBotPlain.on_spawn b s'
        end
      else s
  | EvError b message =>
      if is_created b s then
        match build with
        | with_scheduler => McBot.on_error b message s
        | plain => McBotPlain.on_error b message s
        end
      else s
  | EvEnd b reason =>
      if is_created b s then
        match build with
        | with_scheduler => McBot.on_end b reason s
        | plain => McBotPlain.on_end b reason s
        end
      else s
  | EvKicked b reason =>
      if is_created b s then
        match build with
        | with_scheduler => McBot.on_kicked b reason s
        | plain => McBotPlain.on_kicked b reason s
        end
      else s
  | CallStart n ov => with_sched (λ sc, (startBehavior n ov sc).2) s
  | CallStop n => with_sched (λ sc, (stopBehavior n sc).2) s
  | CallStopAll => with_sched (λ sc, (stopAllBehaviors sc).2) s
  | CallList => s
  | EvTimer timer w => with_sched (fire tick timer w) s
  end.

Definition run (build : Build) (events : list Event) (s : Sys) : Sys :=
  foldl (λ acc e, step build e acc) s events.

(** The states the process can be in. *)
Inductive reachable (build : Build) : Sys → Prop :=
  | reach_initial : reachable build sys_initial
  | reach_step s e : reachable build s → reachable build (step build e s).

(** The states the scheduler module can be in, whoever calls it. *)
Inductive sched_reachable : Sched → Prop :=
  | sreach_initial : sched_reachable initial
  | sreach_op s o : sched_reachable s → sched_reachable (run_op tick o s).

(** The calls and events that end a session: [disconnect()], and the
    [end] event of a bot that [connect] created. *)
Definition ends_session (e : Event) (s : Sys) : Prop :=
  match e with
  | CallDisconnect => True
  | EvEnd b _ => b ∈ (created (mc s)).*1
  | _ => False
  end.

End Process.

(* ------------------------------------------------------------------ *)
(** ** The action facade ([mc-bot.ts], "Actions") *)

Record Vec3 : Type := { vx : Z; vy : Z; vz : Z }.

Record Block : Type := { blk_name : string; blk_position : Vec3 }.

(** Which of the three callbacks armed by [waitForGoal] runs first. *)
Inductive Woken : Type := goal_reached | path_stop | timed_out.

(** What the connected bot answers.  The game changes while an action is
    suspended, so every answer depends on the moment it is asked for; the
    moment is a counter that each completed [await] on the bot advances.
    A command that can fail answers with the message of its rejection. *)
Record Game : Type := {
  g_blockAt : nat → Vec3 → option Block;
  (** [b.entity.position.distanceTo(pos)] *)
  g_distanceTo : nat → Vec3 → Q;
  g_wait : nat → Woken;
  g_dig : nat → Block → option string;
  g_placeBlock : nat → Block → option string;
  (** [mcData.blocksByName[n]] and [mcData.itemsByName[n]], as ids *)
  g_blocksByName : string → option Z;
  g_itemsByName : string → option Z;
  (** [b.findBlocks({ matching, maxDistance, count })] *)
  g_findBlocks : nat → Z → Z → Z → list Vec3;
  g_findBlock : nat → option Z → Z → option Block;
  (** [b.recipesFor(id, null, 1, table)], recipes by number *)
  g_recipesFor : nat → Z → option Block → list nat;
  g_craft : nat → nat → Z → option Block → option string
}.

(** The bot methods an action called, in order. *)
Inductive Call : Type :=
  | c_blockAt (pos : Vec3)
  | c_setGoal (pos : Vec3) (range : Z)
  | c_stop
  | c_dig (block : Block)
  | c_placeBlock (ref : Block)
  | c_findBlocks (matching maxDistance count : Z)
  | c_findBlock (matching : option Z) (maxDistance : Z)
  | c_recipesFor (item : Z) (table : option Block)
  | c_craft (recipe : nat) (count : Z) (table : option Block).

Record Act : Type := {
  now : nat;
  calls : list Call;
  act_logged : list (Level * string)
}.

Definition act_start : Act := {| now := 0; calls := []; act_logged := [] |}.

(** An action: it returns or throws, and leaves its trace. *)
Definition M (A : Type) : Type := Act → Result A * Act.

Definition ret {A} (a : A) : M A := λ st, (Ok a, st).
Definition throw {A} (message : string) : M A := λ st, (Throw message, st).
Definition bind {A B} (m : M A) (k : A → M B) : M B :=
  λ st, match m st with
        | (Ok a, st') => k a st'
        | (Throw message, st') => (Throw message, st')
        end.
(** [try { m } catch (err) { h(err.message) }] *)
Definition try_catch {A} (m : M A) (h : string → M A) : M A :=
  λ st, match m st with
        | (Ok a, st') => (Ok a, st')
        | (Throw message, st') => h message st'
        end.

Notation "'let*' x ':=' m 'in' k" := (bind m (λ x, k))
  (at level 10, x name, m at level 100, k at level 200).

Definition call (c : Call) : M unit :=
  λ st, (Ok tt, {| now := now st; calls := calls st ++ [c]; act_logged := act_logged st |}).
Definition act_log (lvl : Level) (msg : string) : M unit :=
  λ st, (Ok tt, {| now := now st; calls := calls st; act_logged := act_logged st ++ [(lvl, msg)] |}).
(** Resuming after an [await] on the bot. *)
Definition resumed : M unit :=
  λ st, (Ok tt, {| now := S (now st); calls := calls st; act_logged := act_logged st |}).
Definition clock : M nat := λ st, (Ok (now st), st).
Definition lift {A} (r : Result A) : M A := λ st, (r, st).

(** [`${n}`] for a number with at most one decimal, given in tenths. *)
Definition show_tenths (n : Z) : string :=
  if (n mod 10 =? 0)%Z then pretty (n / 10)%Z
  else pretty (n / 10)%Z +:+ "." +:+ pretty (n mod 10)%Z.

(** [Math.round(d * 10)], for [Math.round(d * 10) / 10]. *)
Definition round_tenths (d : Q) : Z :=
  Qfloor (Qplus (Qmult d (inject_Z 10)) (Qmake 1 2)).

Definition is_air (b : Block) : bool := String.eqb (blk_name b) "air".

Definition show_vec3 (p : Vec3) : string :=
  "(" +:+ pretty (vx p) +:+ ", " +:+ pretty (vy p) +:+ ", " +:+ pretty (vz p) +:+ ")".

(** The actions of the [mc-bot.ts] that imports [./autonomous.js]. *)
Module Actions.
Section WithGame.
Variable g : Game.

Definition blockAt (pos : Vec3) : M (option Block) :=
  let* _ := call (c_blockAt pos) in let* t := clock in ret (g_blockAt g t pos).

(** [await] a command of the bot that may reject. *)
Definition awaited (c : Call) (answer : nat → option string) : M unit :=
  let* _ := call c in let* t := clock in let* _ := resumed in
  match answer t with
  | None => ret tt
  | Some message => throw message
  end.

(** [waitForGoal(b, timeout = 30000)] *)
Definition waitForGoal : M unit :=
  let* t := clock in let* _ := resumed in
  match g_wait g t with
  | timed_out => let* _ := call c_stop in throw "Pathfinding timed out."
  | goal_reached | path_stop => ret tt
  end.

(** [navigateTo(b, pos, range = 2)] *)
Definition navigateTo (pos : Vec3) (range : Z) : M unit :=
  let* t := clock in
  if Qle_bool (g_distanceTo g t pos) (inject_Z (range + 1)) then ret tt
  else let* _ := call (c_setGoal pos range) in waitForGoal.

(** [moveTo(x, y, z)] *)
Definition moveTo (c : Conn) (x y z : Z) : M string :=
  let* _ := lift (getBotOrThrow c) in
  let target := {| vx := x; vy := y; vz := z |} in
  let* _ := call (c_setGoal target 1) in
  let* _ := waitForGoal in
  let* t := clock in
  let dist := round_tenths (g_distanceTo g t target) in
  ret ("Arrived near " +:+ pretty x +:+ ", " +:+ pretty y +:+ ", " +:+ pretty z
       +:+ " (distance: " +:+ show_tenths dist +:+ ").").

(** [digAt(x, y, z)] *)
Definition digAt (c : Conn) (x y z : Z) : M string :=
  let* _ := lift (getBotOrThrow c) in
  let target := {| vx := x; vy := y; vz := z |} in
  let* found := blockAt target in
  match found with
  | None => throw "No solid block at that position."
  | Some block =>
      if is_air block then throw "No solid block at that position."
      else
        let* _ := navigateTo target 4 in
        let* _ := awaited (c_dig block) (λ t, g_dig g t block) in
        ret ("Dug " +:+ blk_name block +:+ " at " +:+ pretty x +:+ ", "
             +:+ pretty y +:+ ", " +:+ pretty z +:+ ".")
  end.

(** [placeBlock(x, y, z)]; the face vector is computed from the two
    positions and passed on. *)
Definition placeBlock (c : Conn) (x y z : Z) : M string :=
  let* _ := lift (getBotOrThrow c) in
  let target := {| vx := x; vy := y; vz := z |} in
  let* found := blockAt target in
  match found with
  | None => throw "No reference block at that position."
  | Some refBlock =>
      let* _ := navigateTo target 4 in
      let* _ := awaited (c_placeBlock refBlock) (λ t, g_placeBlock g t refBlock) in
      ret "Block placed."
  end.

(** One turn of the [for (const pos of positions)] loop of
    [collectBlock]; it returns the new value of [collected]. *)
Definition collect_one (count : Z) (collected : nat) (pos : Vec3) : M nat :=
  let* found := blockAt pos in
  match found with
  | None => ret collected
  | Some block =>
      if is_air block then ret collected
      else
        try_catch
          (let* _ := navigateTo pos 4 in
           let* fresh := blockAt pos in
           match fresh with
           | None => ret collected
           | Some freshBlock =>
               if is_air freshBlock then ret collected
               else
                 let* _ := awaited (c_dig freshBlock) (λ t, g_dig g t freshBlock) in
                 let* _ := act_log Info ("[MC] Collected " +:+ blk_name freshBlock +:+ " ("
                               +:+ pretty (S collected) +:+ "/" +:+ pretty count +:+ ")") in
                 ret (S collected)
           end)
          (λ message,
             let* _ := act_log Warn ("[MC] Failed to collect at " +:+ show_vec3 pos +:+ ": "
                           +:+ message) in
             ret collected)
  end.

Fixpoint collect_loop (count : Z) (collected : nat) (positions : list Vec3) : M nat :=
  match positions with
  | [] => ret collected
  | pos :: rest =>
      let* collected' := collect_one count collected pos in
      collect_loop count collected' rest
  end.

(** [collectBlock(blockName, count)] *)
Definition collectBlock (c : Conn) (blockName : string) (count : Z) : M string :=
  let* _ := lift (getBotOrThrow c) in
  match g_blocksByName g blockName with
  | None => throw ("Unknown block type: " +:+ blockName)
  | Some blockType =>
      let* _ := call (c_findBlocks blockType 64 count) in
      let* t := clock in
      let positions := g_findBlocks g t blockType 64 count in
      match positions with
      | [] => throw ("No " +:+ blockName +:+ " found within 64 blocks.")
      | _ =>
          let* collected := collect_loop count 0 positions in
          ret ("Collected " +:+ pretty collected +:+ "/" +:+ pretty (length positions)
               +:+ " " +:+ blockName +:+ ".")
      end
  end.

Definition recipesFor (item : Z) (table : option Block) : M (list nat) :=
  let* _ := call (c_recipesFor item table) in let* t := clock in ret (g_recipesFor g t item table).

(** The last two statements of [craftItem]. *)
Definition craft_first (itemName : string) (recipes : list nat) (count : Z)
    (table : option Block) : M string :=
  match recipes with
  | [] => throw "Cannot read properties of undefined"
  | recipe :: _ =>
      let* _ := awaited (c_craft recipe count table) (λ t, g_craft g t recipe count table) in
      ret ("Crafted " +:+ itemName +:+ " x" +:+ pretty count +:+ ".")
  end.

(** [craftItem(itemName, count)] *)
Definition craftItem (c : Conn) (itemName : string) (count : Z) : M string :=
  let* _ := lift (getBotOrThrow c) in
  match g_itemsByName g itemName with
  | None => throw ("Unknown item: " +:+ itemName)
  | Some itemType =>
      let* recipes := recipesFor itemType None in
      match recipes with
      | [] =>
          let matching := g_blocksByName g "crafting_table" in
          let* _ := call (c_findBlock matching 32) in
          let* t := clock in
          match g_findBlock g t matching 32 with
          | None =>
              throw ("No available recipe for " +:+ itemName
                     +:+ ". No crafting table nearby (need one within 32 blocks for complex recipes).")
          | Some tableBlock =>
              let* _ := navigateTo (blk_position tableBlock) 3 in
              let* recipes' := recipesFor itemType (Some tableBlock) in
              match recipes' with
              | [] => throw ("No available recipe for " +:+ itemName
                             +:+ " (missing materials?).")
              | _ => craft_first itemName recipes' count (Some tableBlock)
              end
          end
      | _ => craft_first itemName recipes count None
      end
  end.

End WithGame.
End Actions.

(** The actions of [src/mc-bot.ts], which has no navigation helpers. *)
Module ActionsPlain.
Section WithGame.
Variable g : Game.

(** [digAt(x, y, z)]: the block is looked up once and dug where the bot
    stands. *)
Definition digAt (c : Conn) (x y z : Z) : M string :=
  let* _ := lift (getBotOrThrow c) in
  let target := {| vx := x; vy := y; vz := z |} in
  let* found := Actions.blockAt g target in
  match found with
  | None => throw "No solid block at that position."
  | Some block =>
      if is_air block then throw "No solid block at that position."
      else
        let* _ := Actions.awaited (c_dig block) (λ t, g_dig g t block) in
        ret ("Dug " +:+ blk_name block +:+ " at " +:+ pretty x +:+ ", "
             +:+ pretty y +:+ ", " +:+ pretty z +:+ ".")
  end.

End WithGame.
End ActionsPlain.

(* ------------------------------------------------------------------ *)
(** ** The chat-command handler ([chat-commands.ts]) *)

Module ChatCommands.

(** What a handled message makes the process do. *)
Inductive Deferred : Type :=
  | mc_disconnect
  | process_exit (code : Z).

Inductive Effect : Type :=
  | bot_chat (msg : string)
  | bot_whisper (user msg : string)
  (** the body of a command that works on the game, by command name *)
  | command_body (cmd sender : string) (args : list string)
  | setTimeout (ms : Z) (callback : list Deferred).

Record ChatCommand : Type := {
  name : string;
  aliases : list string;
  ownerOnly : bool;
  execute : string → list string → (string → Effect) → list Effect
}.

(** A command whose body is not looked into. *)
Definition game_command (n : string) (al : list string) : ChatCommand :=
  {| name := n; aliases := al; ownerOnly := false;
     execute := λ sender args _, [command_body n sender args] |}.

Definition disconnect_command : ChatCommand :=
  {| name := "disconnect"; aliases := ["quit"; "dc"]; ownerOnly := true;
     execute := λ _ _ reply,
       [reply "Goodbye!"; setTimeout 1000 [mc_disconnect; process_exit 0]] |}.

Definition commands : list ChatCommand := [
  game_command "help" ["h"; "?"];
  game_command "status" ["stat"; "info"];
  game_command "players" ["who"; "online"];
  game_command "time" [];
  game_command "weather" [];
  game_command "come" ["here"];
  game_command "goto" ["go"; "move"];
  game_command "follow" ["stalk"];
  game_command "stop" ["halt"; "cancel"];
  game_command "jump" [];
  game_command "look" [];
  game_command "dig" ["mine"; "break"];
  game_command "digat" [];
  game_command "collect" ["gather"];
  game_command "place" [];
  game_command "inventory" ["inv"; "items"];
  game_command "equip" [];
  game_command "toss" ["drop"; "throw"];
  game_command "hold" ["select"];
  game_command "craft" [];
  game_command "attack" ["fight"; "kill"];
  game_command "flee" ["run"];
  game_command "say" ["chat"];
  disconnect_command
].

(** The alias map built at the start of [setupChatCommands]. *)
Definition aliasMap : gmap string string :=
  foldl (λ m cmd, foldl (λ m' alias, <[alias := name cmd]> m') m (aliases cmd))
        ∅ commands.

(** White space, within ASCII: tab, line feed, vertical tab, form feed,
    carriage return, space. *)
Definition is_space (a : Ascii.ascii) : bool :=
  let n := Ascii.nat_of_ascii a in
  (Nat.leb 9 n && Nat.leb n 13) || Nat.eqb n 32.

Definition to_lower (a : Ascii.ascii) : Ascii.ascii :=
  let n := Ascii.nat_of_ascii a in
  if Nat.leb 65 n && Nat.leb n 90 then Ascii.ascii_of_nat (n + 32) else a.

(** [s.toLowerCase()] *)
Fixpoint toLowerCase (s : string) : string :=
  match s with
  | EmptyString => EmptyString
  | String a r => String (to_lower a) (toLowerCase r)
  end.

(** [s.slice(n)] *)
Fixpoint slice (n : nat) (s : string) : string :=
  match n, s with
  | 0, _ => s
  | S n', String _ r => slice n' r
  | S _, EmptyString => EmptyString
  end.

Fixpoint trimStart (s : string) : string :=
  match s with
  | String a r => if is_space a then trimStart r else s
  | EmptyString => EmptyString
  end.

Fixpoint trimEnd (s : string) : string :=
  match s with
  | EmptyString => EmptyString
  | String a r =>
      match trimEnd r with
      | EmptyString => if is_space a then EmptyString else String a EmptyString
      | r' => String a r'
      end
  end.

(** [s.trim()] *)
Definition trim (s : string) : string := trimEnd (trimStart s).

(** [s.split(/\s+/)]: [gap] says that the previous character was white
    space, [cur] is the piece being read. *)
Fixpoint split_go (gap : bool) (cur s : string) : list string :=
  match s with
  | EmptyString => [cur]
  | String a r =>
      if is_space a then
        if gap then split_go true cur r
        else cur :: split_go true EmptyString r
      else split_go false (cur +:+ String a EmptyString) r
  end.

Definition split_ws (s : string) : list string := split_go false EmptyString s.

Definition nonempty (s : string) : bool :=
  match s with EmptyString => false | _ => true end.

(** [handleMessage(sender, message, whisper)] inside
    [setupChatCommands(bot, prefix, owner)]; [botUsername] is
    [bot.username]. *)
Definition handleMessage (botUsername prefix owner : string)
    (sender message : string) (whisper : bool) : list Effect :=
  if String.eqb sender botUsername then []
  else if negb (String.prefix prefix message) then []
  else
    let parts := split_ws (trim (slice (String.length prefix) message)) in
    let cmdName := toLowerCase (hd EmptyString parts) in
    if negb (nonempty cmdName) then []
    else
      let resolved := default cmdName (aliasMap !! cmdName) in
      let reply := λ msg, if whisper then bot_whisper sender msg else bot_chat msg in
      match find (λ c, String.eqb (name c) resolved) commands with
      | None => [reply ("Unknown command: " +:+ cmdName)]
      | Some cmd =>
          if ownerOnly cmd && nonempty owner && negb (String.eqb sender owner)
          then [reply "Permission denied."]
          else execute cmd sender (tl parts) reply
      end.

End ChatCommands.

(* ------------------------------------------------------------------ *)
(** ** Statements of the specification *)

(** The run-state the specification gives a behavior started from
    [stopped]: defaults, then the configuration retained from the last
    run, then the overrides, with [enabled] true. *)
Definition restart_state_spec (def : BehaviorDef) (lastKnown overrides : option Config)
  : Config :=
  <["enabled" := JBool true]>
    (assign (assign (defaultConfig def) (default ∅ lastKnown)) (default ∅ overrides)).

(** A tick function that always fails, over a game with nothing to read. *)
Definition failing_tick : string → Bot → Config → unit → Config * option string :=
  λ _ _ state _, (state, Some "boom").

(** Overrides [{ radius: r }]. *)
Definition radius_config (r : Z) : Config := list_to_config [("radius", JNum r)].

(* ------------------------------------------------------------------ *)
(** ** Invariants *)

(** What holds of the scheduler between any two calls: the runtime's
    interval timers are exactly the handles in [activeTimers]; a timer's
    callback holds the run-state object registered under its name; names
    with a timer are registered; without a session nothing runs. *)
Record sched_inv (s : Sched) : Prop := {
  inv_ids : NoDup (live s).*1;
  inv_live_active : ∀ id t,
    (id, t) ∈ live s → omap_get (tm_name t) (activeTimers s) = Some id;
  inv_active_live : ∀ n id,
    omap_get n (activeTimers s) = Some id → ∃ t, (id, t) ∈ live s ∧ tm_name t = n;
  inv_fresh : ∀ id t, (id, t) ∈ live s → id < next_timer s;
  inv_state : ∀ id t,
    (id, t) ∈ live s →
    behaviorStates s !! tm_name t = Some (tm_state t) ∧ is_Some (heap s !! tm_state t);
  inv_loc_fresh : ∀ n l, behaviorStates s !! n = Some l → l < next_loc s;
  inv_loc_inj : ∀ n1 n2 l,
    behaviorStates s !! n1 = Some l → behaviorStates s !! n2 = Some l → n1 = n2;
  inv_registered : ∀ n id,
    omap_get n (activeTimers s) = Some id → is_Some (findDef n);
  inv_idle : _bot s = None → activeTimers s = []
}.

(** The scheduler has a session only while [mc-bot.ts] has one; the
    file that does not import the scheduler never gives it one. *)
Definition sys_inv (build : Build) (s : Sys) : Prop :=
  sched_inv (sched s) ∧
  match build with
  | with_scheduler => bot (mc s) = None → _bot (sched s) = None
  | plain => _bot (sched s) = None
  end.

(** The configuration the plugin falls back to. *)
Definition local_config : McConfig :=
  {| host := "localhost"; port := 25565; username := "OpenClaw"; version := "1.20.4" |}.

(** The bot is out of the reach [navigateTo] accepts without moving. *)
Definition far (g : Game) (st : Act) (pos : Vec3) (range : Z) : Prop :=
  Qle_bool (g_distanceTo g (now st) pos) (inject_Z (range + 1)) = false.

(** The module state once a bot has spawned. *)
Definition spawned_conn : Conn :=
  {| bot := Some 0; currentStatus := connected; created := [(0, local_config)];
     spawn_armed := []; quitted := []; settled := [];
     mc_logged := [] |}.

Definition stone (p : Vec3) : Block := {| blk_name := "stone"; blk_position := p |}.

(** A game with stone everywhere until the first [await] completes and
    nothing after it, with the bot 100 blocks from any position; [arrival]
    is how every wait for the navigator ends.  Digging, placing and
    crafting succeed; no recipe works without a table, one does with the
    table at the origin. *)
Definition vanishing_game (arrival : Woken) : Game := {|
  g_blockAt := λ t p, match t with 0 => Some (stone p) | S _ => None end;
  g_distanceTo := λ _ _, inject_Z 100;
  g_wait := λ _, arrival;
  g_dig := λ _ _, None;
  g_placeBlock := λ _ _, None;
  g_blocksByName := λ n, if String.eqb n "stone" then Some 1%Z
                         else if String.eqb n "crafting_table" then Some 2%Z else None;
  g_itemsByName := λ n, if String.eqb n "stick" then Some 7%Z else None;
  g_findBlocks := λ _ _ _ _, [{| vx := 1; vy := 2; vz := 3 |}];
  g_findBlock := λ _ _ _,
    Some {| blk_name := "crafting_table"; blk_position := {| vx := 0; vy := 0; vz := 0 |} |};
  g_recipesFor := λ _ _ table, match table with None => [] | Some _ => [0] end;
  g_craft := λ _ _ _ _, None
|}.

(* ------------------------------------------------------------------ *)
(** ** Further notions used in the properties *)

(** The run-state object at [l] has [enabled] false. *)
Definition disabled_at (l : nat) (s : Sched) : Prop :=
  ∃ state, heap s !! l = Some state ∧ getProp state "enabled" = JBool false.

(** Whether [n] has an entry in [activeTimers]. *)
Definition is_running (n : string) (s : Sched) : Prop :=
  omap_has n (activeTimers s) = true.

(** What holds of the module variables of [mc-bot.ts] between two calls or
    events. *)
Record conn_inv (c : Conn) : Prop := {
  ci_bot : ∀ b, bot c = Some b → currentStatus c = connected ∧ b ∈ (created c).*1;
  ci_nobot : bot c = None → currentStatus c ≠ connected;
  ci_armed : ∀ b, b ∈ spawn_armed c → b ∈ (created c).*1;
  ci_fresh : ∀ b, b ∈ (created c).*1 → b < length (created c);
  ci_quitted : ∀ b, b ∈ quitted c → b ∈ (created c).*1;
  ci_settled_once : NoDup (settled c).*1;
  ci_settled_created : ∀ b r, (b, r) ∈ settled c → b ∈ (created c).*1;
  ci_resolved : ∀ b st,
    (b, Ok st) ∈ settled c → status st = connected ∧ telemetry st = Some b
}.

(* ------------------------------------------------------------------ *)
(** ** The other actions of [mc-bot.ts] *)

Record Item : Type := { it_name : string; it_count : Z }.

Record Entity : Type := {
  en_name : option string;
  en_username : option string;
  en_type : string
}.

(** What the connected bot shows when one of the remaining actions
    asks: [b.players] in key order (a player may have no [entity]),
    [b.inventory.items()], [b.time.timeOfDay] (a whole number of ticks),
    [b.isRaining], what [b.nearestEntity(match)] finds, and how [b.equip]
    and [b.tossStack] end (the message of the rejection, if any). *)
Record Avatar : Type := {
  a_players : list (string * option Entity);
  a_items : list Item;
  a_timeOfDay : N;
  a_isRaining : bool;
  a_nearestEntity : (Entity → bool) → option Entity;
  a_equip : Item → string → option string;
  a_tossStack : Item → option string
}.

(** The commands these actions give the bot. *)
Inductive Cmd : Type :=
  | cmd_chat (message : string)
  | cmd_follow (target : Entity) (range : Z)
  | cmd_stop
  | cmd_stopDigging
  | cmd_equip (item : Item) (destination : string)
  | cmd_tossStack (item : Item)
  | cmd_attack (target : Entity).

(** [s.includes(sub)] *)
Fixpoint includes (s sub : string) : bool :=
  String.prefix sub s ||
  match s with
  | EmptyString => false
  | String _ rest => includes rest sub
  end.

(** [s.padStart(2, "0")] *)
Definition padStart2 (s : string) : string :=
  match String.length s with
  | 0 => "00"
  | 1 => "0" +:+ s
  | _ => s
  end.

(** The local [hours] of [getTime]. *)
Definition time_hours (ticks : N) : N := ((ticks / 1000 + 6) mod 24)%N.

(** The local [minutes] of [getTime].  On whole ticks the double
    arithmetic of [Math.floor(((ticks % 1000) / 1000) * 60)] gives the
    floor of the exact quotient, for each of the 1000 remainders. *)
Definition time_minutes (ticks : N) : N := ((ticks mod 1000) * 60 / 1000)%N.

Record GameTime : Type := {
  gt_ticks : N;
  gt_display : string;
  gt_period : string
}.

(** The loop of [attackUntilDead]: whether the 400 ms interval is still
    set, whether the 60 s timer has yet to run, how the promise was
    resolved, and the commands given so far. *)
Record AttackLoop : Type := {
  al_interval : bool;
  al_deadline : bool;
  al_resolved : option string;
  al_cmds : list Cmd
}.

(** What the runtime runs on the loop: a firing of the interval, at which
    the entity is valid or not and at some distance, or the 60 s timer. *)
Inductive AttackEvent : Type :=
  | interval_fires (isValid : bool) (dist : Q)
  | deadline_fires.

(** Whether the 60 s timer runs among these events. *)
Definition deadline_among (events : list AttackEvent) : bool :=
  existsb (λ e, match e with deadline_fires => true | _ => false end) events.

Module BotActions.
Section WithAvatar.
Variable a : Avatar.

(** [chat(message)] *)
Definition chat (c : Conn) (message : string) : Result string * list Cmd :=
  match getBotOrThrow c with
  | Throw e => (Throw e, [])
  | Ok _ => (Ok ("Sent: " +:+ message), [cmd_chat message])
  end.

(** [b.players[name]?.entity] *)
Definition player_entity (n : string) : option Entity :=
  match omap_get n (a_players a) with
  | Some (Some e) => Some e
  | _ => None
  end.

(** [followPlayer(name)] *)
Definition followPlayer (c : Conn) (n : string) : Result string * list Cmd :=
  match getBotOrThrow c with
  | Throw e => (Throw e, [])
  | Ok _ =>
      match player_entity n with
      | None => (Throw ("Cannot see player " +:+ quoted n +:+ "."), [])
      | Some e => (Ok ("Following " +:+ n +:+ "."), [cmd_follow e 3])
      end
  end.

(** [stopActions()]: what [stopDigging] throws is ignored. *)
Definition stopActions (c : Conn) : Result string * list Cmd :=
  match getBotOrThrow c with
  | Throw e => (Throw e, [])
  | Ok _ => (Ok "Stopped all actions.", [cmd_stop; cmd_stopDigging])
  end.

(** [listInventory()] *)
Definition listInventory (c : Conn) : Result string :=
  match getBotOrThrow c with
  | Throw e => Throw e
  | Ok _ =>
      match a_items a with
      | [] => Ok "Inventory is empty."
      | items =>
          Ok (String.concat ", "
                (map (λ i, it_name i +:+ " x" +:+ pretty (it_count i)) items))
      end
  end.

(** [b.inventory.items().find((i) => i.name.includes(itemName))] *)
Definition find_item (itemName : string) : option Item :=
  find (λ i, includes (it_name i) itemName) (a_items a).

(** [equipItem(itemName, destination)] *)
Definition equipItem (c : Conn) (itemName destination : string)
  : Result string * list Cmd :=
  match getBotOrThrow c with
  | Throw e => (Throw e, [])
  | Ok _ =>
      match find_item itemName with
      | None => (Throw ("No " +:+ quoted itemName +:+ " in inventory."), [])
      | Some item =>
          match a_equip a item destination with
          | Some e => (Throw e, [cmd_equip item destination])
          | None =>
              (Ok ("Equipped " +:+ it_name item +:+ " to " +:+ destination +:+ "."),
               [cmd_equip item destination])
          end
      end
  end.

(** [tossItem(itemName, count)]; [count] is not read. *)
Definition tossItem (c : Conn) (itemName : string) (count : option Z)
  : Result string * list Cmd :=
  match getBotOrThrow c with
  | Throw e => (Throw e, [])
  | Ok _ =>
      match find_item itemName with
      | None => (Throw ("No " +:+ quoted itemName +:+ " in inventory."), [])
      | Some item =>
          match a_tossStack a item with
          | Some e => (Throw e, [cmd_tossStack item])
          | None => (Ok ("Tossed " +:+ it_name item +:+ "."), [cmd_tossStack item])
          end
      end
  end.

(** [listPlayers()] *)
Definition listPlayers (c : Conn) : Result (list string) :=
  match getBotOrThrow c with
  | Throw e => Throw e
  | Ok _ => Ok (a_players a).*1
  end.

(** [getTime()] *)
Definition getTime (c : Conn) : Result GameTime :=
  match getBotOrThrow c with
  | Throw e => Throw e
  | Ok _ =>
      let ticks := a_timeOfDay a in
      Ok {| gt_ticks := ticks;
            gt_display := pretty (time_hours ticks) +:+ ":"
                          +:+ padStart2 (pretty (time_minutes ticks));
            gt_period := if (12000 <=? ticks)%N then "Night" else "Day" |}
  end.

(** [getWeather()] *)
Definition getWeather (c : Conn) : Result string :=
  match getBotOrThrow c with
  | Throw e => Throw e
  | Ok _ => Ok (if a_isRaining a then "Rainy" else "Clear")
  end.

End WithAvatar.

(** [entity.name ?? entity.username ?? "entity"] *)
Definition entity_label (e : Entity) : string :=
  match en_name e with
  | Some n => n
  | None => default "entity" (en_username e)
  end.

(** [resolve(v)] on the promise [attackUntilDead] returns. *)
Definition resolve_attack (v : string) (st : AttackLoop) : option string :=
  match al_resolved st with
  | Some r => Some r
  | None => Some v
  end.

(** [attackUntilDead(b, entity)] up to its [return]: both timers are set. *)
Definition attackUntilDead : AttackLoop :=
  {| al_interval := true; al_deadline := true; al_resolved := None; al_cmds := [] |}.

(** The two callbacks of [attackUntilDead]. *)
Definition attack_step (entity : Entity) (e : AttackEvent) (st : AttackLoop) : AttackLoop :=
  match e with
  | interval_fires isValid dist =>
      if negb (al_interval st) then st
      else if negb isValid then
        {| al_interval := false; al_deadline := al_deadline st;
           al_resolved := resolve_attack ("Killed " +:+ entity_label entity +:+ ".") st;
           al_cmds := al_cmds st ++ [cmd_stop] |}
      else if Qle_bool dist (inject_Z 4) then
        {| al_interval := true; al_deadline := al_deadline st;
           al_resolved := al_resolved st;
           al_cmds := al_cmds st ++ [cmd_attack entity] |}
      else
        {| al_interval := true; al_deadline := al_deadline st;
           al_resolved := al_resolved st;
           al_cmds := al_cmds st ++ [cmd_follow entity 2] |}
  | deadline_fires =>
      if negb (al_deadline st) then st
      else
        {| al_interval := false; al_deadline := false;
           al_resolved :=
             resolve_attack ("Stopped attacking " +:+ entity_label entity
                             +:+ " (timeout).") st;
           al_cmds := al_cmds st ++ [cmd_stop] |}
  end.

Definition attack_run (entity : Entity) (events : list AttackEvent) (st : AttackLoop)
  : AttackLoop :=
  foldl (λ acc e, attack_step entity e acc) st events.

(** [attackNearest()] up to the start of the loop. *)
Definition attackNearest (a : Avatar) (c : Conn) : Result (Entity * AttackLoop) :=
  match getBotOrThrow c with
  | Throw e => Throw e
  | Ok _ =>
      match a_nearestEntity a
              (λ e, String.eqb (en_type e) "hostile" || String.eqb (en_type e) "mob") with
      | None => Throw "No hostile mobs nearby."
      | Some hostile => Ok (hostile, attackUntilDead)
      end
  end.

(** [attackEntity(name)] up to the start of the loop. *)
Definition attackEntity (a : Avatar) (c : Conn) (n : string)
  : Result (Entity * AttackLoop) :=
  match getBotOrThrow c with
  | Throw e => Throw e
  | Ok _ =>
      match player_entity a n with
      | Some e => Ok (e, attackUntilDead)
      | None =>
          match a_nearestEntity a
                  (λ e, bool_decide (en_name e = Some n)
                        || bool_decide (en_username e = Some n)) with
          | None => Throw ("Cannot find entity " +:+ quoted n +:+ ".")
          | Some e => Ok (e, attackUntilDead)
          end
      end
  end.

End BotActions.

(** An avatar with three stacks in its inventory, at noon. *)
Definition sample_avatar : Avatar := {|
  a_players := [("alice", Some {| en_name := None; en_username := Some "alice";
                                  en_type := "player" |});
                ("bob", None)];
  a_items := [{| it_name := "oak_log"; it_count := 12 |};
              {| it_name := "cooked_beef"; it_count := 3 |};
              {| it_name := "beef"; it_count := 5 |}];
  a_timeOfDay := 6000;
  a_isRaining := false;
  a_nearestEntity := λ _, None;
  a_equip := λ _ _, None;
  a_tossStack := λ _, None
|}.

(** The module state when no bot is held. *)
Definition idle_conn : Conn := mc_initial.

(** A zombie, for the attack loop. *)
Definition zombie : Entity :=
  {| en_name := Some "zombie"; en_username := None; en_type := "hostile" |}.


(* ------------------------------------------------------------------ *)
(** ** The tick of [patrol] *)









(* ================================================================== *)
(** * Properties *)

(* ------------------------------------------------------------------ *)
(** ** Ordered maps *)

Section OrderedMapFacts.
Context {V : Type}.
Implicit Types (m : list (string * V)) (k : string) (v : V).

Lemma eqb_false_ne (a b : string) : a ≠ b → String.eqb a b = false.
Proof. intros H. by apply String.eqb_neq. Qed.

Lemma omap_get_set_eq m k v : omap_get k (omap_set k v m) = Some v.
Proof.
  induction m as [|[k' v'] m IH]; simpl.
  - by rewrite String.eqb_refl.
  - destruct (String.eqb k' k) eqn:E; simpl; rewrite E; [done | exact IH].
Qed.

Lemma omap_get_set_ne m k k' v :
  k ≠ k' → omap_get k' (omap_set k v m) = omap_get k' m.
Proof.
  intros Hne. induction m as [|[k0 v0] m IH]; simpl.
  - by rewrite eqb_false_ne.
  - destruct (String.eqb k0 k) eqn:E; simpl.
    + apply String.eqb_eq in E as ->. by rewrite !eqb_false_ne.
    + by rewrite IH.
Qed.

Lemma omap_get_delete_eq m k : omap_get k (omap_delete k m) = None.
Proof.
  induction m as [|[k0 v0] m IH]; simpl; [done|].
  destruct (String.eqb k0 k) eqn:E; simpl; [done | by rewrite E].
Qed.

Lemma omap_get_delete_ne m k k' :
  k ≠ k' → omap_get k' (omap_delete k m) = omap_get k' m.
Proof.
  intros Hne. induction m as [|[k0 v0] m IH]; simpl; [done|].
  destruct (String.eqb k0 k) eqn:E; simpl.
  - apply String.eqb_eq in E as ->. by rewrite eqb_false_ne.
  - by rewrite IH.
Qed.

Lemma omap_has_true m k : omap_has k m = true ↔ is_Some (omap_get k m).
Proof.
  unfold omap_has. destruct (omap_get k m); split; intros H; done.
Qed.

Lemma omap_has_false m k : omap_has k m = false ↔ omap_get k m = None.
Proof. unfold omap_has. by destruct (omap_get k m). Qed.

Lemma omap_delete_length m k : (length (omap_delete k m) ≤ length m)%nat.
Proof.
  induction m as [|[k0 v0] m IH]; simpl; [done|].
  destruct (String.eqb k0 k); simpl; lia.
Qed.

Lemma omap_get_elem_of m k v : omap_get k m = Some v → (k, v) ∈ m.
Proof.
  induction m as [|[k0 v0] m IH]; simpl; [done|].
  destruct (String.eqb k0 k) eqn:E.
  - apply String.eqb_eq in E as ->. intros [= ->]. apply list_elem_of_here.
  - intros H. apply list_elem_of_further. auto.
Qed.

Lemma omap_get_None_keys m k : omap_get k m = None → k ∉ omap_keys m.
Proof.
  unfold omap_keys. induction m as [|[k0 v0] m IH]; simpl.
  - intros _. apply not_elem_of_nil.
  - destruct (String.eqb k0 k) eqn:E; [done|].
    intros H. apply not_elem_of_cons. split; [|by apply IH].
    intros ->. by rewrite String.eqb_refl in E.
Qed.
End OrderedMapFacts.

(* ------------------------------------------------------------------ *)
(** ** The scheduler invariant *)


Lemma live_unique (s : Sched) id t1 t2 :
  NoDup (live s).*1 → (id, t1) ∈ live s → (id, t2) ∈ live s → t1 = t2.
Proof.
  generalize (live s). intros l Hnd H1 H2.
  induction l as [|[i t] l IH]; [by inversion H1|].
  rewrite fmap_cons in Hnd. apply NoDup_cons in Hnd as [Hni Hnd].
  apply elem_of_cons in H1 as [H1|H1]; apply elem_of_cons in H2 as [H2|H2].
  - congruence.
  - simplify_eq. exfalso. apply Hni, list_elem_of_fmap.
    eexists (_, _). split; [|eassumption]. done.
  - simplify_eq. exfalso. apply Hni, list_elem_of_fmap.
    eexists (_, _). split; [|eassumption]. done.
  - by apply IH.
Qed.

Lemma NoDup_filter_fst {A B} (P : A * B → Prop) `{∀ x, Decision (P x)} (l : list (A * B)) :
  NoDup l.*1 → NoDup (filter P l).*1.
Proof.
  intros Hnd. eapply sublist_NoDup; [exact Hnd|].
  apply fmap_sublist, sublist_filter.
Qed.

Lemma sched_inv_initial : sched_inv initial.
Proof.
  split; simpl; try done.
  - constructor.
  - intros id t H. by inversion H.
  - intros id t H. by inversion H.
  - intros id t H. by inversion H.
Qed.

Lemma sched_inv_set_heap (s : Sched) h :
  sched_inv s →
  (∀ l, is_Some (heap s !! l) → is_Some (h !! l)) →
  sched_inv (set_heap h s).
Proof.
  intros [] Hh. split; simpl; try done.
  intros id t Hin. destruct (inv_state0 id t Hin). split; auto.
Qed.

Lemma sched_inv_log (s : Sched) lvl msg : sched_inv s → sched_inv (log lvl msg s).
Proof. intros []. by split. Qed.

Lemma sched_inv_init (s : Sched) b : sched_inv s → sched_inv (initAutonomous b s).
Proof. intros []. by split. Qed.

Lemma findDef_name n def : findDef n = Some def → name def = n.
Proof.
  unfold findDef. intros H. apply find_some in H as [_ H].
  by apply String.eqb_eq in H.
Qed.

Lemma sched_inv_start (s : Sched) n ov :
  sched_inv s → sched_inv (startBehavior n ov s).2.
Proof.
  intros Hinv. unfold startBehavior.
  destruct (_bot s) as [b|] eqn:Hb; [|done].
  destruct (findDef n) as [def|] eqn:Hdef; [|done].
  destruct (omap_has n (activeTimers s)) eqn:Hrun.
  { destruct ov as [ov|]; [|done].
    destruct (behaviorStates s !! n) as [l|]; [|done]. simpl.
    apply sched_inv_set_heap; [done|].
    intros l' Hl'. by apply lookup_alter_is_Some. }
  apply omap_has_false in Hrun. simpl.
  apply sched_inv_log. destruct Hinv. split; simpl.
  - rewrite fmap_app. apply NoDup_app. split_and!; [done| |apply NoDup_singleton].
    intros id Hid Hnew. apply list_elem_of_singleton in Hnew. simpl in Hnew. subst id.
    apply list_elem_of_fmap in Hid as [[id t] [Heq Hin]]. simpl in Heq.
    apply inv_fresh0 in Hin. lia.
  - intros id t Hin. apply elem_of_app in Hin as [Hin|Hin].
    + assert (tm_name t ≠ n).
      { intros <-. apply inv_live_active0 in Hin. congruence. }
      rewrite omap_get_set_ne by done. by apply inv_live_active0.
    + apply list_elem_of_singleton in Hin. inversion Hin; subst. simpl.
      apply omap_get_set_eq.
  - intros n' id Hget. destruct (decide (n' = n)) as [->|Hne].
    + rewrite omap_get_set_eq in Hget. inversion Hget; subst.
      eexists. split; [apply elem_of_app; right; apply list_elem_of_singleton; done|done].
    + rewrite omap_get_set_ne in Hget by done.
      destruct (inv_active_live0 _ _ Hget) as (t & Hin & Hn).
      exists t. split; [|done]. apply elem_of_app. by left.
  - intros id t Hin. apply elem_of_app in Hin as [Hin|Hin].
    + apply inv_fresh0 in Hin. lia.
    + apply list_elem_of_singleton in Hin. inversion Hin; subst. lia.
  - intros id t Hin. apply elem_of_app in Hin as [Hin|Hin].
    + assert (tm_name t ≠ n).
      { intros <-. apply inv_live_active0 in Hin. congruence. }
      destruct (inv_state0 _ _ Hin) as [Hs Hh]. split.
      * by rewrite lookup_insert_ne.
      * rewrite lookup_insert. case_decide; [by eexists|done].
    + apply list_elem_of_singleton in Hin. inversion Hin; subst. simpl.
      split; by rewrite lookup_insert_eq.
  - intros n' l Hl. destruct (decide (n = n')) as [->|Hne].
    + rewrite lookup_insert_eq in Hl. inversion Hl; subst. lia.
    + rewrite lookup_insert_ne in Hl by done. apply inv_loc_fresh0 in Hl. lia.
  - intros n1 n2 l H1 H2.
    destruct (decide (n = n1)) as [E1|Hne1]; destruct (decide (n = n2)) as [E2|Hne2].
    + congruence.
    + subst n1. rewrite lookup_insert_eq in H1. rewrite lookup_insert_ne in H2 by done.
      inversion H1; subst. apply inv_loc_fresh0 in H2. lia.
    + subst n2. rewrite lookup_insert_eq in H2. rewrite lookup_insert_ne in H1 by done.
      inversion H2; subst. apply inv_loc_fresh0 in H1. lia.
    + rewrite lookup_insert_ne in H1, H2 by done. eauto.
  - intros n' id Hget. destruct (decide (n' = n)) as [->|Hne].
    + by rewrite Hdef.
    + rewrite omap_get_set_ne in Hget by done. eauto.
  - done.
Qed.

Lemma sched_inv_stop (s : Sched) n :
  sched_inv s → sched_inv (stopBehavior n s).2.
Proof.
  intros Hinv. unfold stopBehavior.
  destruct (omap_get n (activeTimers s)) as [timer|] eqn:Hget; [|done]. simpl.
  apply sched_inv_log. destruct Hinv.
  assert (Hkeep : ∀ id t, (id, t) ∈ live s → id ≠ timer → tm_name t ≠ n).
  { intros id t Hin Hid <-. apply inv_live_active0 in Hin. congruence. }
  split; simpl.
  - by apply NoDup_filter_fst.
  - intros id t Hin. apply list_elem_of_filter in Hin as [Hid Hin]. simpl in Hid.
    rewrite omap_get_delete_ne; [by apply inv_live_active0|].
    intros Heq. by apply (Hkeep id t).
  - intros n' id Hget'. destruct (decide (n = n')) as [->|Hne].
    { by rewrite omap_get_delete_eq in Hget'. }
    rewrite omap_get_delete_ne in Hget' by done.
    destruct (inv_active_live0 _ _ Hget') as (t & Hin & Hn).
    exists t. split; [|done]. apply list_elem_of_filter. split; [|done]. simpl.
    intros ->. destruct (inv_active_live0 _ _ Hget) as (t' & Hin' & Hn').
    assert (t = t') by (eapply live_unique; eauto). congruence.
  - intros id t Hin. apply list_elem_of_filter in Hin as [_ Hin]. eauto.
  - intros id t Hin. apply list_elem_of_filter in Hin as [_ Hin].
    destruct (inv_state0 _ _ Hin) as [Hs Hh]. split; [done|].
    destruct (behaviorStates s !! n); [|done]. by apply lookup_alter_is_Some.
  - done.
  - done.
  - intros n' id Hget'. destruct (decide (n = n')) as [->|Hne].
    { by rewrite omap_get_delete_eq in Hget'. }
    rewrite omap_get_delete_ne in Hget' by done. eauto.
  - intros Hb. rewrite (inv_idle0 Hb) in Hget. done.
Qed.

(** Whatever [stopBehavior] keeps, the two loops over [activeTimers] keep. *)
Lemma stop_fold_keeps (P : Sched → Prop) :
  (∀ n s, P s → P (stopBehavior n s).2) →
  ∀ names s, P s → P (foldl (λ acc n, (stopBehavior n acc).2) s names).
Proof.
  intros Hstop names. induction names as [|n names IH]; intros s Hs; simpl; auto.
Qed.

Lemma shutdown_loop_keeps (P : Sched → Prop) :
  (∀ n s, P s → P (stopBehavior n s).2) →
  ∀ fuel cursor s, P s → P (shutdown_loop fuel cursor s).
Proof.
  intros Hstop fuel. induction fuel as [|fuel IH]; intros cursor s Hs; simpl; [done|].
  destruct (activeTimers s !! cursor) as [[n id]|]; [|done]. apply IH, Hstop, Hs.
Qed.

Lemma stop_running_activeTimers n s timer :
  omap_get n (activeTimers s) = Some timer →
  activeTimers (stopBehavior n s).2 = omap_delete n (activeTimers s).
Proof. intros H. unfold stopBehavior. by rewrite H. Qed.

(** The loop of [shutdownAutonomous] empties [activeTimers]: each turn
    removes the entry the iterator stands on. *)
Lemma shutdown_loop_empties fuel s :
  (length (activeTimers s) ≤ fuel)%nat →
  activeTimers (shutdown_loop fuel 0 s) = [].
Proof.
  revert s. induction fuel as [|fuel IH]; intros s Hlen; simpl.
  - destruct (activeTimers s); [done | simpl in Hlen; lia].
  - destruct (activeTimers s) as [|[n id] rest] eqn:Hact; simpl; [done|].
    assert (Hstop : activeTimers (stopBehavior n s).2 = omap_delete n rest).
    { rewrite (stop_running_activeTimers n s id).
      - rewrite Hact. simpl. by rewrite String.eqb_refl.
      - rewrite Hact. simpl. by rewrite String.eqb_refl. }
    rewrite Hstop.
    replace (omap_has n (omap_delete n rest)) with false
      by (symmetry; apply omap_has_false, omap_get_delete_eq).
    apply IH. rewrite Hstop.
    pose proof (omap_delete_length rest n). simpl in Hlen. lia.
Qed.

Lemma shutdown_activeTimers s : activeTimers (shutdownAutonomous s) = [].
Proof. unfold shutdownAutonomous. simpl. by apply shutdown_loop_empties. Qed.

Lemma shutdown_bot s : _bot (shutdownAutonomous s) = None.
Proof. done. Qed.

Lemma sched_inv_stopAll s : sched_inv s → sched_inv (stopAllBehaviors s).2.
Proof. intros H. simpl. apply stop_fold_keeps; [intros; by apply sched_inv_stop | done]. Qed.

Lemma sched_inv_shutdown s : sched_inv s → sched_inv (shutdownAutonomous s).
Proof.
  intros H. pose proof (shutdown_activeTimers s) as Hempty.
  unfold shutdownAutonomous in *.
  assert (Hloop : sched_inv (shutdown_loop (length (activeTimers s)) 0 s))
    by (apply shutdown_loop_keeps; [intros; by apply sched_inv_stop | done]).
  destruct Hloop. split; simpl; try done.
Qed.

(** With no entry in [activeTimers] the runtime holds no timer. *)
Lemma idle_no_live s : sched_inv s → activeTimers s = [] → live s = [].
Proof.
  intros [] Hempty. destruct (live s) as [|[id t] l] eqn:Hl; [done|].
  specialize (inv_live_active0 id t). rewrite Hempty in inv_live_active0.
  discriminate inv_live_active0. apply list_elem_of_here.
Qed.

Section SchedulerRuns.
Context {World : Type}.
Variable tick : string → Bot → Config → World → Config * option string.

Lemma timer_callback_fields t w s :
  let s' := timer_callback tick t w s in
  _bot s' = _bot s ∧ activeTimers s' = activeTimers s ∧ live s' = live s ∧
  behaviorStates s' = behaviorStates s ∧ next_timer s' = next_timer s ∧
  next_loc s' = next_loc s.
Proof.
  unfold timer_callback. cbv zeta. destruct (_bot s) eqn:Hb; [|by split_and!].
  destruct (heap s !! tm_state t); [|by split_and!].
  destruct (negb _); [by split_and!|].
  destruct (tick _ _ _ _) as [state' [message|]]; by split_and!.
Qed.

Lemma sched_inv_callback t w s :
  sched_inv s → sched_inv (timer_callback tick t w s).
Proof.
  intros Hinv. unfold timer_callback. destruct (_bot s); [|done].
  destruct (heap s !! tm_state t) eqn:Hh; [|done].
  destruct (negb _); [done|].
  destruct (tick _ _ _ _) as [state' failure].
  assert (sched_inv (set_heap (<[tm_state t:=state']> (heap s)) s)).
  { apply sched_inv_set_heap; [done|]. intros l Hl.
    rewrite lookup_insert. case_decide; [by eexists | done]. }
  destruct failure; [by apply sched_inv_log | done].
Qed.

Lemma sched_inv_fire timer w s : sched_inv s → sched_inv (fire tick timer w s).
Proof.
  intros Hinv. unfold fire.
  destruct (list_find _ _) as [[i [id t]]|]; [|done]. by apply sched_inv_callback.
Qed.

Lemma sched_inv_run_op o s : sched_inv s → sched_inv (run_op tick o s).
Proof.
  destruct o; simpl; intros H.
  - by apply sched_inv_init.
  - by apply sched_inv_shutdown.
  - by apply sched_inv_start.
  - by apply sched_inv_stop.
  - by apply sched_inv_stopAll.
  - done.
  - by apply sched_inv_fire.
Qed.

Lemma sched_reachable_inv s : sched_reachable tick s → sched_inv s.
Proof.
  induction 1 as [|s o _ IH]; [apply sched_inv_initial | by apply sched_inv_run_op].
Qed.

Lemma run_ops_reachable ops s :
  sched_reachable tick s → sched_reachable tick (run_ops tick ops s).
Proof.
  revert s. induction ops as [|o ops IH]; intros s Hs; simpl; [done|].
  apply IH. by constructor.
Qed.

(** The runtime finds the timer a handle names. *)
Lemma find_live s timer t :
  sched_inv s → (timer, t) ∈ live s →
  ∃ i, list_find (λ p, p.1 = timer) (live s) = Some (i, (timer, t)).
Proof.
  intros Hinv Hin.
  destruct (list_find_elem_of (λ p : nat * Timer, p.1 = timer) (live s) (timer, t))
    as [[i [id t']] Hfind]; [done..|].
  pose proof Hfind as Hf. apply list_find_Some in Hf as (Hl & Hid & _).
  simpl in Hid. subst id. apply list_elem_of_lookup_2 in Hl.
  assert (t' = t) as -> by (eapply live_unique; eauto using inv_ids).
  by exists i.
Qed.

(** Two timers of one behavior have the same handle. *)
Lemma at_most_one_timer s n :
  sched_inv s → (length (timers_of n s) ≤ 1)%nat.
Proof.
  intros Hinv. unfold timers_of.
  assert (Hnd : NoDup (filter (λ p : nat * Timer, tm_name p.2 = n) (live s)).*1)
    by (apply NoDup_filter_fst, Hinv).
  assert (Hsame : ∀ p q,
             p ∈ filter (λ p : nat * Timer, tm_name p.2 = n) (live s) →
             q ∈ filter (λ p : nat * Timer, tm_name p.2 = n) (live s) → p.1 = q.1).
  { intros [i1 t1] [i2 t2] [H1 Hin1]%list_elem_of_filter [H2 Hin2]%list_elem_of_filter.
    simpl in *. apply (inv_live_active _ Hinv) in Hin1, Hin2. congruence. }
  destruct (filter _ (live s)) as [|p [|q l]]; simpl; [lia..|].
  exfalso. rewrite !fmap_cons in Hnd. apply NoDup_cons in Hnd as [Hni _].
  apply Hni. rewrite (Hsame p q); [apply list_elem_of_here| |].
  - apply list_elem_of_here.
  - apply list_elem_of_further, list_elem_of_here.
Qed.
End SchedulerRuns.

(* ------------------------------------------------------------------ *)
(** ** Starting and stopping behaviors *)

Lemma alter_lookup_insert {A} (f : A → A) (m : gmap nat A) i x :
  m !! i = Some x → alter f i m = <[i := f x]> m.
Proof.
  intros H. apply map_eq. intros j. rewrite lookup_alter, lookup_insert.
  case_decide; [subst; by rewrite H | done].
Qed.

Section ControlApi.
Context {World : Type}.
Variable tick : string → Bot → Config → World → Config * option string.

(** C1.  In every state the scheduler reaches, through any sequence of
    calls and timer firings, a behavior name has at most one interval
    timer.  A start of a running behavior creates none: without
    overrides it answers "is already running" and changes nothing; with
    overrides it answers "config updated", writes the overrides into the
    run-state object that is already registered (the one the timer's
    callback holds), and leaves the timers and their handles as they
    were. *)
Theorem startBehavior_single_timer (ops : list Op) (n : string) :
  let s := run_ops tick ops initial in
  (length (timers_of n s) ≤ 1)%nat ∧
  (omap_has n (activeTimers s) = true →
   startBehavior n None s =
     (Ok ("Behavior " +:+ quoted n +:+ " is already running."), s) ∧
   ∀ ov, ∃ timer t state,
     (timer, t) ∈ live s ∧ tm_name t = n ∧
     behaviorStates s !! n = Some (tm_state t) ∧
     heap s !! tm_state t = Some state ∧
     let r := startBehavior n (Some ov) s in
     r.1 = Ok ("Behavior " +:+ quoted n +:+ " config updated.") ∧
     live r.2 = live s ∧
     activeTimers r.2 = activeTimers s ∧
     behaviorStates r.2 = behaviorStates s ∧
     heap r.2 = <[tm_state t := assign state ov]> (heap s) ∧
     (length (timers_of n r.2) ≤ 1)%nat).
Proof.
  intros s.
  assert (Hinv : sched_inv s)
    by (apply sched_reachable_inv with tick, run_ops_reachable; constructor).
  clearbody s. split; [by apply at_most_one_timer|].
  intros Hrun. pose proof Hrun as Hget. apply omap_has_true in Hget as [timer Hget].
  destruct (_bot s) as [b|] eqn:Hb;
    [|by rewrite (inv_idle _ Hinv Hb) in Hget].
  destruct (inv_registered _ Hinv _ _ Hget) as [def Hdef].
  destruct (inv_active_live _ Hinv _ _ Hget) as (t & Hin & Hname).
  destruct (inv_state _ Hinv _ _ Hin) as [Hst [state Hheap]].
  rewrite Hname in Hst.
  split.
  - unfold startBehavior. by rewrite Hb, Hdef, Hrun.
  - intros ov. exists timer, t, state.
    assert (Hstart : startBehavior n (Some ov) s =
              (Ok ("Behavior " +:+ quoted n +:+ " config updated."),
               set_heap (alter (λ st, assign st ov) (tm_state t) (heap s)) s))
      by (unfold startBehavior; by rewrite Hb, Hdef, Hrun, Hst).
    split_and!; try done. cbv zeta.
    pose proof (sched_inv_start s n (Some ov) Hinv) as Hinv'.
    rewrite Hstart in *. simpl in *. split_and!; try done.
    + exact (alter_lookup_insert (λ st, assign st ov) _ _ _ Hheap).
    + exact (at_most_one_timer s n Hinv).
Qed.

End ControlApi.

Lemma startBehavior_single_timer_witness :
  let s := run_ops failing_tick
             [OpInit 0; OpStart "guard" (Some (radius_config 8))] initial in
  (length (timers_of "guard" s) ≤ 1)%nat ∧
  startBehavior "guard" None s =
    (Ok ("Behavior " +:+ quoted "guard" +:+ " is already running."), s).
Proof.
  intros s.
  destruct (startBehavior_single_timer failing_tick
              [OpInit 0; OpStart "guard" (Some (radius_config 8))] "guard")
    as [Hone Hrunning].
  split; [exact Hone|]. apply Hrunning. reflexivity.
Defined.

Lemma registry_no_enabled n def :
  findDef n = Some def → defaultConfig def !! "enabled" = None.
Proof.
  unfold findDef. intros H. apply find_some in H as [Hin _].
  simpl in Hin. repeat destruct Hin as [<-|Hin]; try done.
Qed.

(** C3, as the code has it.  A start of a registered behavior that is not
    running builds the run-state from [{ enabled: true }], the defaults and
    the overrides alone, in a fresh object that replaces whatever was
    retained from an earlier run; a key held only by the retained state is
    absent from it.  [enabled] is true when the overrides carry no
    [enabled] key.  A timer is created at the definition's interval and
    its handle is stored under the name. *)
Theorem restart_state_from_defaults (s : Sched) (n : string) (ov : option Config)
    (b : Bot) (def : BehaviorDef) :
  _bot s = Some b →
  findDef n = Some def →
  omap_has n (activeTimers s) = false →
  let r := startBehavior n ov s in
  let state :=
    assign (assign {[ "enabled" := JBool true ]} (defaultConfig def)) (default ∅ ov) in
  r.1 = Ok ("Behavior " +:+ quoted n +:+ " started.") ∧
  behaviorStates r.2 !! n = Some (next_loc s) ∧
  heap r.2 !! next_loc s = Some state ∧
  live r.2 = (live s ++ [(next_timer s, {| tm_name := n; tm_state := next_loc s;
                                          tm_interval := interval def |})])%list ∧
  omap_get n (activeTimers r.2) = Some (next_timer s) ∧
  (default ∅ ov !! "enabled" = None → getProp state "enabled" = JBool true) ∧
  (∀ k, k ≠ "enabled" → defaultConfig def !! k = None → default ∅ ov !! k = None →
        state !! k = None).
Proof.
  intros Hb Hdef Hrun r state. subst r. unfold startBehavior.
  rewrite Hb, Hdef, Hrun. simpl. split_and!.
  - done.
  - by rewrite lookup_insert_eq.
  - by rewrite lookup_insert_eq.
  - done.
  - apply omap_get_set_eq.
  - intros Hov. unfold getProp, state, assign.
    rewrite lookup_union_r by done.
    rewrite lookup_union_r by (by eapply registry_no_enabled).
    by rewrite lookup_singleton_eq.
  - intros k Hk Hd Hov. unfold state, assign.
    rewrite lookup_union_r by done. rewrite lookup_union_r by done.
    by rewrite lookup_singleton_ne.
Qed.

Lemma restart_state_from_defaults_witness :
  let s := (stopBehavior "guard"
              (startBehavior "guard" (Some (radius_config 8))
                 (initAutonomous 0 initial)).2).2 in
  heap (startBehavior "guard" None s).2 !! next_loc s =
    Some (assign (assign {[ "enabled" := JBool true ]} (defaultConfig guard_def)) ∅).
Proof.
  intros s.
  destruct (restart_state_from_defaults s "guard" None 0 guard_def)
    as (_ & _ & Hstate & _); [reflexivity..|exact Hstate].
Defined.

(** The run-state of a restart is not what the specification describes:
    after [start("guard", { radius: 8 })] and [stop("guard")], a start
    without overrides gives radius 16, the default, where the retained
    configuration has 8. *)
Lemma restart_drops_retained_config :
  let s := (stopBehavior "guard"
              (startBehavior "guard" (Some (radius_config 8))
                 (initAutonomous 0 initial)).2).2 in
  let s' := (startBehavior "guard" None s).2 in
  ∃ l0 retained l1 state,
    behaviorStates s !! "guard" = Some l0 ∧ heap s !! l0 = Some retained ∧
    behaviorStates s' !! "guard" = Some l1 ∧ heap s' !! l1 = Some state ∧
    getProp retained "radius" = JNum 8 ∧
    getProp state "radius" = JNum 16 ∧
    state ≠ restart_state_spec guard_def (Some retained) None.
Proof.
  intros s s'.
  exists 0, (list_to_config [("enabled", JBool false); ("radius", JNum 8)]),
         1, (list_to_config [("enabled", JBool true); ("radius", JNum 16)]).
  split_and!; try (vm_compute; reflexivity).
  intros Heq. apply (f_equal (λ c : Config, c !! "radius")) in Heq.
  vm_compute in Heq. discriminate Heq.
Qed.

(** C8, as the code has it.  For a name that is not in the registry,
    [startBehavior] throws "Unknown behavior" with the list of the
    registered names when a session is initialized, and "Bot not
    connected." when none is; [stopBehavior] does not throw: it answers
    that the behavior is not running and changes nothing. *)
Theorem unknown_behavior_name {World : Type}
    (tick : string → Bot → Config → World → Config * option string)
    (s : Sched) (n : string) (ov : option Config) :
  sched_reachable tick s →
  findDef n = None →
  (is_Some (_bot s) →
   startBehavior n ov s =
     (Throw ("Unknown behavior: " +:+ n
             +:+ ". Available: auto_eat, guard, auto_collect, auto_follow, patrol"), s)) ∧
  (_bot s = None → startBehavior n ov s = (Throw "Bot not connected.", s)) ∧
  stopBehavior n s = (Ok ("Behavior " +:+ quoted n +:+ " is not running."), s).
Proof.
  intros Hinv%sched_reachable_inv Hdef. split_and!.
  - intros [b Hb]. unfold startBehavior. by rewrite Hb, Hdef.
  - intros Hb. unfold startBehavior. by rewrite Hb.
  - unfold stopBehavior. destruct (omap_get n (activeTimers s)) as [id|] eqn:Hget; [|done].
    apply (inv_registered _ Hinv) in Hget as [def Hsome]. congruence.
Qed.

Lemma unknown_behavior_name_witness :
  stopBehavior "fly" (initAutonomous 0 initial) =
    (Ok ("Behavior " +:+ quoted "fly" +:+ " is not running."), initAutonomous 0 initial).
Proof.
  apply (unknown_behavior_name failing_tick (initAutonomous 0 initial) "fly" None).
  - apply (sreach_op failing_tick initial (OpInit 0)), sreach_initial.
  - reflexivity.
Defined.

(** [stopBehavior] on a name outside the registry returns; it throws no
    "Unknown behavior" error. *)
Lemma stop_unknown_returns :
  findDef "fly" = None ∧
  (stopBehavior "fly" initial).1 = Ok ("Behavior " +:+ quoted "fly" +:+ " is not running.") ∧
  ¬ ∃ message, (stopBehavior "fly" initial).1 = Throw message.
Proof. split_and!; [reflexivity | reflexivity | by intros [message H]]. Qed.

Section NoSession.
Context {World : Type}.
Variable tick : string → Bot → Config → World → Config * option string.


Lemma no_session_kept ops s :
  Forall not_init ops → _bot s = None → _bot (run_ops tick ops s) = None.
Proof.
  intros Hops. revert s. induction Hops as [|o ops Ho _ IH]; intros s Hs; [done|].
  simpl. apply IH. destruct o; simpl in *; try done.
  - unfold startBehavior. by rewrite Hs.
  - unfold stopBehavior. destruct (omap_get _ _); done.
  - apply (stop_fold_keeps (λ s, _bot s = None)); [|done].
    intros n' s' Hs'. unfold stopBehavior. destruct (omap_get _ _); done.
  - unfold fire. destruct (list_find _ _) as [[? [? t']]|]; [|done].
    by destruct (timer_callback_fields tick t' w s) as [-> _].
Qed.

(** C9.  With no session in the scheduler, which is the case at load,
    after [shutdownAutonomous], and for as long as [initAutonomous] is
    not called, [startBehavior] throws "Bot not connected." for every
    name, registered or not, and every overrides, before it looks the
    name up; [stopBehavior], [stopAllBehaviors] and [listBehaviors]
    return. *)
Theorem start_needs_session (s : Sched) (ops : list Op) (n : string)
    (ov : option Config) :
  Forall not_init ops →
  let s0 := run_ops tick ops initial in
  let s1 := run_ops tick ops (shutdownAutonomous s) in
  startBehavior n ov s0 = (Throw "Bot not connected.", s0) ∧
  startBehavior n ov s1 = (Throw "Bot not connected.", s1) ∧
  (∃ message, (stopBehavior n s1).1 = Ok message) ∧
  (∃ message, (stopAllBehaviors s1).1 = Ok message) ∧
  map l_name (listBehaviors s1) = map name behaviorDefs.
Proof.
  intros Hops s0 s1.
  assert (H0 : _bot s0 = None) by (by apply no_session_kept).
  assert (H1 : _bot s1 = None) by (by apply no_session_kept).
  clearbody s0 s1. split_and!.
  - unfold startBehavior. by rewrite H0.
  - unfold startBehavior. by rewrite H1.
  - unfold stopBehavior. destruct (omap_get _ _); by eexists.
  - by eexists.
  - done.
Qed.
End NoSession.

Lemma start_needs_session_witness :
  let ops := [OpStart "patrol" None; OpStopAll; OpFire 0 tt] in
  let s := run_ops failing_tick ops
             (shutdownAutonomous
                (run_ops failing_tick [OpInit 0; OpStart "guard" None] initial)) in
  startBehavior "guard" (Some (radius_config 8)) s = (Throw "Bot not connected.", s).
Proof.
  intros ops s.
  destruct (start_needs_session failing_tick
              (run_ops failing_tick [OpInit 0; OpStart "guard" None] initial)
              ops "guard" (Some (radius_config 8))) as (_ & H & _).
  - repeat constructor.
  - exact H.
Defined.

(* ------------------------------------------------------------------ *)
(** ** A failing tick *)

Section TickFailure.
Context {World : Type}.
Variable tick : string → Bot → Config → World → Config * option string.

(** Two live timers hold different run-state objects. *)
Lemma live_states_differ s id1 t1 id2 t2 :
  sched_inv s → (id1, t1) ∈ live s → (id2, t2) ∈ live s →
  id1 ≠ id2 → tm_state t1 ≠ tm_state t2.
Proof.
  intros Hinv H1 H2 Hne Heq.
  destruct (inv_state _ Hinv _ _ H1) as [Hs1 _].
  destruct (inv_state _ Hinv _ _ H2) as [Hs2 _].
  rewrite Heq in Hs1.
  pose proof (inv_loc_inj _ Hinv _ _ _ Hs1 Hs2) as Hname.
  apply (inv_live_active _ Hinv) in H1, H2. congruence.
Qed.

(** C2.  Take a timer the runtime holds, in a state the scheduler can
    reach, at a firing where the tick is called and fails.  The callback
    catches the failure: the only trace is one warning that starts with
    the tag of the behavior name.  The timer stays with the runtime and
    in [activeTimers], the session reference is kept, and nobody sets
    [enabled] to false, so the next firing calls the tick again unless
    the tick itself cleared [enabled].  Every other timer fires as it
    would have, on a run-state object the failure did not touch. *)
Theorem tick_failure_isolated (s : Sched) (timer : nat) (t : Timer) (b : Bot)
    (state state' : Config) (w : World) (message : string) :
  sched_reachable tick s →
  (timer, t) ∈ live s →
  _bot s = Some b →
  heap s !! tm_state t = Some state →
  truthy (getProp state "enabled") = true →
  tick (tm_name t) b state w = (state', Some message) →
  let s' := fire tick timer w s in
  logged s' = (logged s ++ [(Warn, "[Auto:" +:+ tm_name t +:+ "] " +:+ message)])%list ∧
  live s' = live s ∧
  activeTimers s' = activeTimers s ∧
  _bot s' = Some b ∧
  behaviorStates s' = behaviorStates s ∧
  heap s' = <[tm_state t := state']> (heap s) ∧
  fire_ticks timer s' = truthy (getProp state' "enabled") ∧
  (∀ timer' t', (timer', t') ∈ live s → timer' ≠ timer →
     heap s' !! tm_state t' = heap s !! tm_state t' ∧
     fire_ticks timer' s' = fire_ticks timer' s).
Proof.
  intros Hreach Hin Hb Hheap Hen Htick s'.
  pose proof (sched_reachable_inv tick s Hreach) as Hinv.
  destruct (find_live s timer t Hinv Hin) as [i Hfind].
  assert (Hs' : s' = log Warn ("[Auto:" +:+ tm_name t +:+ "] " +:+ message)
                       (set_heap (<[tm_state t := state']> (heap s)) s)).
  { subst s'. unfold fire. rewrite Hfind. unfold timer_callback.
    by rewrite Hb, Hheap, Hen, Htick. }
  clearbody s'. subst s'. simpl. split_and!; try done.
  - unfold fire_ticks. simpl. rewrite Hfind, Hb. by rewrite lookup_insert_eq.
  - intros timer' t' Hin' Hne.
    assert (tm_state t ≠ tm_state t') by (eapply live_states_differ; eauto).
    split; [by rewrite lookup_insert_ne|].
    destruct (find_live s timer' t' Hinv Hin') as [i' Hfind'].
    unfold fire_ticks. simpl. rewrite Hfind', Hb. by rewrite lookup_insert_ne.
Qed.
End TickFailure.

Lemma tick_failure_isolated_witness :
  let s := run_ops failing_tick [OpInit 0; OpStart "guard" None] initial in
  let s' := fire failing_tick 0 tt s in
  logged s' = (logged s ++ [(Warn, "[Auto:guard] boom")])%list ∧
  live s' = live s ∧
  fire_ticks 0 s' = true.
Proof.
  intros s s'.
  destruct (tick_failure_isolated failing_tick s 0
              {| tm_name := "guard"; tm_state := 0; tm_interval := 500 |} 0
              (list_to_config [("enabled", JBool true); ("radius", JNum 16)])
              (list_to_config [("enabled", JBool true); ("radius", JNum 16)])
              tt "boom")
    as (Hlog & Hlive & _ & _ & _ & _ & Hnext & _).
  - apply (run_ops_reachable failing_tick). constructor.
  - vm_compute. apply list_elem_of_here.
  - reflexivity.
  - vm_compute. reflexivity.
  - reflexivity.
  - vm_compute. reflexivity.
  - split_and!; [exact Hlog | exact Hlive | exact Hnext].
Defined.

(* ------------------------------------------------------------------ *)
(** ** The session and the scheduler together *)

Lemma startBehavior_bot n ov s : _bot (startBehavior n ov s).2 = _bot s.
Proof.
  unfold startBehavior. destruct (_bot s) eqn:Hb; [|done].
  destruct (findDef n); [|done].
  destruct (omap_has _ _); [|done].
  destruct ov; [|done]. by destruct (behaviorStates s !! n).
Qed.

Lemma stopBehavior_bot n s : _bot (stopBehavior n s).2 = _bot s.
Proof. unfold stopBehavior. by destruct (omap_get _ _). Qed.

Lemma stopAllBehaviors_bot s : _bot (stopAllBehaviors s).2 = _bot s.
Proof.
  simpl. apply (stop_fold_keeps (λ s', _bot s' = _bot s)); [|done].
  intros n s' <-. apply stopBehavior_bot.
Qed.

Lemma shutdown_idle s :
  activeTimers s = [] → shutdownAutonomous s = set_bot None s.
Proof. intros H. unfold shutdownAutonomous. by rewrite H. Qed.

Lemma idle_lists_nothing_running s :
  activeTimers s = [] → Forall (λ l, running l = false) (listBehaviors s).
Proof.
  intros H. unfold listBehaviors. apply Forall_fmap, Forall_forall.
  intros def _. simpl. by rewrite H.
Qed.

Section SessionEnd.
Context {World : Type}.
Variable tick : string → Bot → Config → World → Config * option string.

Lemma fire_bot timer w s : _bot (fire tick timer w s) = _bot s.
Proof.
  unfold fire. destruct (list_find _ _) as [[? [? t]]|]; [|done].
  by destruct (timer_callback_fields tick t w s) as [-> _].
Qed.


Lemma sys_inv_sched_op build (f : Sched → Sched) s :
  (∀ sc, sched_inv sc → sched_inv (f sc)) →
  (∀ sc, _bot (f sc) = _bot sc) →
  sys_inv build s → sys_inv build (with_sched f s).
Proof.
  intros Hf Hbot [Hinv Hb]. split; simpl; [by apply Hf|].
  rewrite Hbot. by destruct build.
Qed.

Lemma sys_inv_step build e s : sys_inv build s → sys_inv build (step tick build e s).
Proof.
  intros Hs. pose proof Hs as [Hinv Hb]. destruct e; simpl.
  - destruct build; simpl.
    + unfold McBot.connect. by destruct (bot (mc s)) eqn:E.
    + unfold McBotPlain.connect. by destruct (bot (mc s)) eqn:E.
  - destruct build; simpl.
    + unfold McBot.disconnect. destruct (bot (mc s)) eqn:E; [|done].
      split; simpl; [by apply sched_inv_shutdown | done].
    + unfold McBotPlain.disconnect. by destruct (bot (mc s)) eqn:E.
  - case_bool_decide; [|done]. destruct build; simpl.
    + split; simpl; [by apply sched_inv_init | done].
    + by split.
  - destruct (is_created b s); [|done]. destruct build; simpl.
    + unfold McBot.on_error. simpl. by destruct (currentStatus (mc s)).
    + unfold McBotPlain.on_error. simpl. by destruct (currentStatus (mc s)).
  - destruct (is_created b s); [|done]. destruct build; simpl.
    + split; simpl; [by apply sched_inv_shutdown | done].
    + by split.
  - destruct (is_created b s); [|done]. by destruct build.
  - apply sys_inv_sched_op; [| |done].
    + intros sc. apply sched_inv_start.
    + intros sc. apply startBehavior_bot.
  - apply sys_inv_sched_op; [| |done].
    + intros sc. apply sched_inv_stop.
    + intros sc. apply stopBehavior_bot.
  - apply sys_inv_sched_op; [| |done].
    + intros sc. apply sched_inv_stopAll.
    + intros sc. apply stopAllBehaviors_bot.
  - done.
  - apply sys_inv_sched_op; [| |done].
    + intros sc. apply sched_inv_fire.
    + intros sc. apply fire_bot.
Qed.

Lemma reachable_inv build s : reachable tick build s → sys_inv build s.
Proof.
  induction 1 as [|s e _ IH]; [|by apply sys_inv_step].
  split; [apply sched_inv_initial | by destruct build].
Qed.

Lemma run_reachable build events s :
  reachable tick build s → reachable tick build (run tick build events s).
Proof.
  revert s. induction events as [|e events IH]; intros s Hs; simpl; [done|].
  apply IH. by constructor.
Qed.


(** C4.  In either build, from every state the process reaches, after
    [disconnect()] or after the [end] event of a bot (a kick and a
    dropped connection end in one): no name has a timer, the runtime
    holds no interval timer of the scheduler, the scheduler's session
    reference and the module's [bot] are null, and [listBehaviors]
    reports every behavior as not running.  [shutdownAutonomous] with
    nothing running only clears the session reference. *)
Theorem session_end_tears_down (build : Build) (s : Sys) (e : Event) :
  reachable tick build s →
  ends_session e s →
  let s' := step tick build e s in
  activeTimers (sched s') = [] ∧
  live (sched s') = [] ∧
  _bot (sched s') = None ∧
  bot (mc s') = None ∧
  Forall (λ l, running l = false) (listBehaviors (sched s')) ∧
  (activeTimers (sched s) = [] →
   shutdownAutonomous (sched s) = set_bot None (sched s)).
Proof.
  intros Hreach Hends s'.
  assert (Hinv' : sys_inv build s')
    by (apply reachable_inv; by constructor).
  pose proof (reachable_inv build s Hreach) as [Hinv Hb].
  assert (Hmain : activeTimers (sched s') = [] ∧ _bot (sched s') = None
                  ∧ bot (mc s') = None).
  { subst s'. destruct e; simpl in Hends; try done; simpl.
    - destruct build; simpl.
      + unfold McBot.disconnect. destruct (bot (mc s)) eqn:E; simpl.
        * split_and!; [apply shutdown_activeTimers | done | done].
        * split_and!; [apply (inv_idle _ Hinv) | |]; auto.
      + unfold McBotPlain.disconnect.
        destruct (bot (mc s)) eqn:E; simpl;
          (split_and!; [by apply (inv_idle _ Hinv) | done | done]).
    - unfold is_created. rewrite bool_decide_eq_true_2 by done.
      destruct build; simpl.
      + split_and!; [apply shutdown_activeTimers | done | done].
      + split_and!; [by apply (inv_idle _ Hinv) | done | done]. }
  destruct Hmain as (Hact & Hnone & Hmc). destruct Hinv' as [Hsched' _].
  clearbody s'. split_and!; try done.
  - by apply idle_no_live.
  - by apply idle_lists_nothing_running.
  - apply shutdown_idle.
Qed.
End SessionEnd.


Lemma session_end_tears_down_witness :
  let s := run failing_tick with_scheduler
             [CallConnect local_config; EvSpawn 0; CallStart "guard" None] sys_initial in
  activeTimers (sched s) = [("guard", 0)] ∧
  activeTimers (sched (step failing_tick with_scheduler (EvEnd 0 "socketClosed") s)) = [].
Proof.
  intros s. split; [reflexivity|].
  destruct (session_end_tears_down failing_tick with_scheduler s (EvEnd 0 "socketClosed"))
    as [H _].
  - apply (run_reachable failing_tick). constructor.
  - vm_compute. apply list_elem_of_here.
  - exact H.
Defined.

(* ------------------------------------------------------------------ *)
(** ** Connecting *)

(** The part of C5 that holds: a [connect] made while [bot] is set
    resolves at once with the snapshot and creates nothing. *)
Lemma connect_while_connected (cfg : McConfig) (s : Sys) (b : Bot) :
  bot (mc s) = Some b →
  McBot.connect cfg s = (Settled (Ok (snapshot (mc s))), s) ∧
  McBotPlain.connect cfg s = (Settled (Ok (snapshot (mc s))), s).
Proof.
  intros H. unfold McBot.connect, McBotPlain.connect. by rewrite H.
Qed.

(** C5 fails on a second [connect] made before the first bot has spawned:
    [bot] is still null, so the call goes through [mineflayer.createBot]
    again and stays pending.  Two bots exist; when both have spawned the
    module holds the second and the first was never asked to quit.  Both
    [mc-bot.ts] files do this. *)
Theorem connect_twice_creates_two_sessions (cfg : McConfig) :
  let s1 := (McBot.connect cfg sys_initial).2 in
  let r := McBot.connect cfg s1 in
  let s3 := McBot.on_spawn 1 (McBot.on_spawn 0 r.2) in
  bot (mc s1) = None ∧
  currentStatus (mc s1) = connecting ∧
  r.1 = Pending 1 ∧
  (created (mc r.2)).*1 = [0; 1] ∧
  bot (mc s3) = Some 1 ∧
  quitted (mc s3) = [] ∧
  (created (mc (McBotPlain.connect cfg (McBotPlain.connect cfg sys_initial).2).2)).*1
    = [0; 1].
Proof. intros s1 r s3. by split_and!. Qed.

(* ------------------------------------------------------------------ *)
(** ** Waiting for the navigator *)

Section NavigationTimeout.
Variable g : Game.

Ltac run_action :=
  unfold Actions.moveTo, Actions.digAt, Actions.placeBlock, Actions.craftItem,
    Actions.collect_one, Actions.navigateTo, Actions.waitForGoal,
    Actions.blockAt, Actions.awaited, Actions.recipesFor, Actions.craft_first,
    try_catch, bind, lift, call, clock, resumed, ret, throw, act_log,
    getBotOrThrow, far in *;
  simpl in *.

Lemma collect_one_returns count collected pos st :
  ∃ n st', Actions.collect_one g count collected pos st = (Ok n, st').
Proof.
  run_action.
  destruct (g_blockAt g (now st) pos) as [block|]; [|by eauto].
  destruct (is_air block); [by eauto|]. simpl.
  destruct (Qle_bool _ _); simpl.
  - destruct (g_blockAt g (now st) pos) as [fresh|]; [|by eauto].
    destruct (is_air fresh); [by eauto|]. simpl.
    destruct (g_dig g (now st) fresh); simpl; by eauto.
  - destruct (g_wait g (now st)); simpl; try by eauto.
    + destruct (g_blockAt g (S (now st)) pos) as [fresh|]; [|by eauto].
      destruct (is_air fresh); [by eauto|]. simpl.
      destruct (g_dig g (S (now st)) fresh); simpl; by eauto.
    + destruct (g_blockAt g (S (now st)) pos) as [fresh|]; [|by eauto].
      destruct (is_air fresh); [by eauto|]. simpl.
      destruct (g_dig g (S (now st)) fresh); simpl; by eauto.
Qed.

Lemma collect_loop_returns count positions collected st :
  ∃ n st', Actions.collect_loop g count collected positions st = (Ok n, st').
Proof.
  revert collected st. induction positions as [|pos rest IH]; intros collected st.
  - simpl. unfold ret. by eauto.
  - simpl. unfold bind at 1.
    destruct (collect_one_returns count collected pos st) as (n & st' & ->).
    apply IH.
Qed.

(** C6, as the code has it.  When the wait for the navigator times out,
    [waitForGoal] stops the pathfinder and rejects with "Pathfinding
    timed out.", and [moveTo], [digAt], [placeBlock] and [craftItem],
    which await it bare, reject with that error.  Only [collectBlock]
    keeps it from its caller: the turn of its loop catches the error,
    logs a warning for the position and leaves [collected] as it was, and
    no call of [collectBlock] rejects with that error. *)
Theorem navigation_timeout_surfaces (c : Conn) (b : Bot) (st : Act) :
  bot c = Some b →
  g_wait g (now st) = timed_out →
  (∀ x y z,
     (Actions.moveTo g c x y z st).1 = Throw "Pathfinding timed out.") ∧
  (∀ x y z block,
     let target := {| vx := x; vy := y; vz := z |} in
     g_blockAt g (now st) target = Some block → is_air block = false →
     far g st target 4 →
     (Actions.digAt g c x y z st).1 = Throw "Pathfinding timed out.") ∧
  (∀ x y z refBlock,
     let target := {| vx := x; vy := y; vz := z |} in
     g_blockAt g (now st) target = Some refBlock →
     far g st target 4 →
     (Actions.placeBlock g c x y z st).1 = Throw "Pathfinding timed out.") ∧
  (∀ itemName count itemType tableBlock,
     g_itemsByName g itemName = Some itemType →
     g_recipesFor g (now st) itemType None = [] →
     g_findBlock g (now st) (g_blocksByName g "crafting_table") 32 = Some tableBlock →
     far g st (blk_position tableBlock) 3 →
     (Actions.craftItem g c itemName count st).1 = Throw "Pathfinding timed out.") ∧
  (∀ count collected pos block,
     g_blockAt g (now st) pos = Some block → is_air block = false →
     far g st pos 4 →
     Actions.collect_one g count collected pos st =
       (Ok collected,
        {| now := S (now st);
           calls := calls st ++ [c_blockAt pos; c_setGoal pos 4; c_stop];
           act_logged := act_logged st ++
             [(Warn, "[MC] Failed to collect at " +:+ show_vec3 pos
                     +:+ ": Pathfinding timed out.")] |})) ∧
  (∀ blockName count st0,
     (Actions.collectBlock g c blockName count st0).1 ≠ Throw "Pathfinding timed out.").
Proof.
  intros Hb Hwait. split_and!.
  - intros x y z. run_action. by rewrite Hb; simpl; rewrite Hwait.
  - intros x y z block target Hblock Hair Hfar. run_action.
    rewrite Hb. simpl. subst target. rewrite Hblock, Hair. simpl.
    rewrite Hfar. simpl. by rewrite Hwait.
  - intros x y z refBlock target Hblock Hfar. run_action.
    rewrite Hb. simpl. subst target. rewrite Hblock. simpl.
    rewrite Hfar. simpl. by rewrite Hwait.
  - intros itemName count itemType tableBlock Hitem Hrec Htable Hfar. run_action.
    rewrite Hb. simpl. rewrite Hitem. simpl. rewrite Hrec. simpl.
    rewrite Htable. simpl. rewrite Hfar. simpl. by rewrite Hwait.
  - intros count collected pos block Hblock Hair Hfar. run_action.
    rewrite Hblock, Hair. simpl. rewrite Hfar. simpl. rewrite Hwait. simpl.
    by rewrite <- !app_assoc.
  - intros blockName count st0. unfold Actions.collectBlock.
    unfold bind at 1. unfold lift, getBotOrThrow. rewrite Hb.
    destruct (g_blocksByName g blockName) as [blockType|]; [|by unfold throw].
    unfold bind at 1. unfold call. unfold bind at 1. unfold clock. simpl.
    destruct (g_findBlocks g (now st0) blockType 64 count) as [|pos rest] eqn:Hpos;
      [by unfold throw|].
    unfold bind at 1.
    destruct (collect_loop_returns count (pos :: rest) 0
                {| now := now st0; calls := calls st0 ++ [c_findBlocks blockType 64 count];
                   act_logged := act_logged st0 |}) as (n & st' & ->).
    by unfold ret.
Qed.
End NavigationTimeout.

Lemma navigation_timeout_surfaces_witness :
  (Actions.digAt (vanishing_game timed_out) spawned_conn 1 2 3 act_start).1
    = Throw "Pathfinding timed out.".
Proof.
  destruct (navigation_timeout_surfaces (vanishing_game timed_out) spawned_conn 0 act_start)
    as (_ & Hdig & _); [reflexivity..|].
  apply (Hdig 1%Z 2%Z 3%Z (stone {| vx := 1; vy := 2; vz := 3 |})); reflexivity.
Defined.

(** C6 fails: with a bot connected and a navigator that does not arrive
    in time, [moveTo] rejects with the timeout. *)
Lemma moveTo_rejects_on_timeout :
  (Actions.moveTo (vanishing_game timed_out) spawned_conn 1 2 3 act_start).1
    = Throw "Pathfinding timed out.".
Proof. reflexivity. Qed.

(* ------------------------------------------------------------------ *)
(** ** Digging after a move *)

Section DigAt.
Variable g : Game.

(** Looks for a [c_dig] among the calls of a finished run. *)
Ltac search_dig :=
  match goal with
  | Hempty : calls _ = [] |- _ =>
      rewrite Hempty; simpl; intros Hin;
      repeat (apply elem_of_cons in Hin as [Hin|Hin]; [by simplify_eq|]);
      by inversion Hin
  end.

(** Whatever the game does, the block [digAt] digs is the one [blockAt]
    returned when the call started. *)
Lemma digAt_digs_first_lookup (c : Conn) (x y z : Z) (st : Act) (block : Block) :
  calls st = [] →
  c_dig block ∈ calls (Actions.digAt g c x y z st).2 →
  g_blockAt g (now st) {| vx := x; vy := y; vz := z |} = Some block.
Proof.
  intros Hempty.
  unfold Actions.digAt, Actions.navigateTo, Actions.waitForGoal, Actions.blockAt,
    Actions.awaited, bind, lift, call, clock, resumed, ret, throw, getBotOrThrow.
  simpl.
  destruct (bot c); simpl; [|search_dig].
  destruct (g_blockAt g (now st) _) as [found|]; simpl; [|search_dig].
  destruct (is_air found); simpl; [search_dig|].
  destruct (Qle_bool _ _); simpl.
  - destruct (g_dig g (now st) found); simpl; search_dig.
  - destruct (g_wait g (now st)); simpl; [| |search_dig];
      destruct (g_dig g (S (now st)) found); simpl; search_dig.
Qed.
End DigAt.

(** C7 fails.  The block at (1, 2, 3) is stone when [digAt] is called and
    gone when the bot arrives.  [digAt] asks [blockAt] once, before it
    moves, and digs the block object it got then: it reports "Dug stone"
    although the position holds no block at that moment.  [collectBlock]
    in the same file asks again after the move.  The [digAt] of the file
    without navigation asks once as well. *)
Theorem digAt_digs_stale_block :
  let g := vanishing_game goal_reached in
  let p := {| vx := 1; vy := 2; vz := 3 |} in
  let r := Actions.digAt g spawned_conn 1 2 3 act_start in
  r.1 = Ok "Dug stone at 1, 2, 3." ∧
  calls r.2 = [c_blockAt p; c_setGoal p 4; c_dig (stone p)] ∧
  g_blockAt g 1 p = None ∧
  calls (Actions.collectBlock g spawned_conn "stone" 1 act_start).2
    = [c_findBlocks 1 64 1; c_blockAt p; c_setGoal p 4; c_blockAt p] ∧
  calls (ActionsPlain.digAt g spawned_conn 1 2 3 act_start).2
    = [c_blockAt p; c_dig (stone p)].
Proof. intros g p r. by split_and!. Qed.

(* ------------------------------------------------------------------ *)
(** ** Owner-only chat commands *)

Section OwnerCheck.
Import ChatCommands.

Lemma only_disconnect_is_ownerOnly resolved cmd :
  find (λ c, String.eqb (name c) resolved) commands = Some cmd →
  ownerOnly cmd = true → cmd = disconnect_command.
Proof.
  intros Hfind Howner. apply find_some in Hfind as [Hin _].
  simpl in Hin. repeat destruct Hin as [<-|Hin]; try done.
Qed.

(** C10.  Take a message that reaches an [ownerOnly] command: it is not
    from the bot itself, it starts with the prefix, and its first word,
    lowercased and resolved through the aliases, names the command.  The
    only such command is [disconnect].  With an empty [owner] the
    command runs for every sender: the reply "Goodbye!", then after one
    second [mc.disconnect()] and [process.exit(0)].  With a non-empty
    [owner] it runs for the owner, and any other sender gets "Permission
    denied." and nothing else happens. *)
Theorem owner_only_enforced_when_owner_set
    (botUsername prefix owner sender message : string) (whisper : bool)
    (cmd : ChatCommand) :
  sender ≠ botUsername →
  String.prefix prefix message = true →
  let parts := split_ws (trim (slice (String.length prefix) message)) in
  let cmdName := toLowerCase (hd EmptyString parts) in
  nonempty cmdName = true →
  find (λ c, String.eqb (name c) (default cmdName (aliasMap !! cmdName))) commands
    = Some cmd →
  ownerOnly cmd = true →
  let reply := λ msg, if whisper then bot_whisper sender msg else bot_chat msg in
  let runs := [reply "Goodbye!"; setTimeout 1000 [mc_disconnect; process_exit 0]] in
  let handled := handleMessage botUsername prefix owner sender message whisper in
  name cmd = "disconnect" ∧
  (owner = EmptyString → handled = runs) ∧
  (owner ≠ EmptyString → sender ≠ owner → handled = [reply "Permission denied."]) ∧
  (sender = owner → handled = runs).
Proof.
  intros Hself Hprefix parts cmdName Hname Hfind Howner reply runs handled.
  pose proof (only_disconnect_is_ownerOnly _ _ Hfind Howner) as ->.
  assert (Hhandled : handled =
            if nonempty owner && negb (String.eqb sender owner)
            then [reply "Permission denied."] else runs).
  { subst handled. unfold handleMessage.
    rewrite (eqb_false_ne _ _ Hself), Hprefix. cbv zeta. cbn [negb].
    fold parts. fold cmdName. rewrite Hname. cbn [negb]. rewrite Hfind.
    reflexivity. }
  rewrite Hhandled. split_and!.
  - done.
  - by intros ->.
  - intros Howner' Hsender. rewrite (eqb_false_ne _ _ Hsender).
    by destruct owner.
  - intros <-. rewrite String.eqb_refl. by rewrite andb_false_r.
Qed.
End OwnerCheck.

Lemma owner_only_enforced_when_owner_set_witness :
  ChatCommands.handleMessage "OpenClaw" "!" EmptyString "eve" "!quit" false
    = [ChatCommands.bot_chat "Goodbye!";
       ChatCommands.setTimeout 1000
         [ChatCommands.mc_disconnect; ChatCommands.process_exit 0]].
Proof.
  destruct (owner_only_enforced_when_owner_set "OpenClaw" "!" EmptyString "eve" "!quit"
              false ChatCommands.disconnect_command)
    as (_ & Hempty & _).
  - discriminate.
  - reflexivity.
  - reflexivity.
  - vm_compute. reflexivity.
  - reflexivity.
  - apply Hempty. reflexivity.
Defined.

(* ================================================================== *)
(** * More of the scheduler *)

Lemma getProp_insert_eq (o : Config) (k : string) (v : JsVal) :
  getProp (<[k := v]> o) k = v.
Proof. unfold getProp. by rewrite lookup_insert_eq. Qed.

(** A stop leaves every other name's handle where it was. *)
Lemma stop_other_handle n n' s :
  n ≠ n' →
  omap_get n' (activeTimers (stopBehavior n s).2) = omap_get n' (activeTimers s).
Proof.
  intros Hne. unfold stopBehavior.
  destruct (omap_get n (activeTimers s)); [|done]. simpl.
  by apply omap_get_delete_ne.
Qed.

Lemma stop_behaviorStates n s :
  behaviorStates (stopBehavior n s).2 = behaviorStates s.
Proof. unfold stopBehavior. by destruct (omap_get n (activeTimers s)). Qed.

Lemma stop_keeps_disabled l n s : disabled_at l s → disabled_at l (stopBehavior n s).2.
Proof.
  intros (state & Hl & Hen). unfold stopBehavior, disabled_at.
  destruct (omap_get n (activeTimers s)); [|by eauto]. simpl.
  destruct (behaviorStates s !! n) as [l'|]; [|by eauto].
  destruct (decide (l' = l)) as [->|Hne].
  - rewrite lookup_alter_eq, Hl. simpl. eexists. split; [done|].
    apply getProp_insert_eq.
  - rewrite lookup_alter_ne by done. by eauto.
Qed.

Lemma stop_keeps_objects l n s :
  is_Some (heap s !! l) → is_Some (heap (stopBehavior n s).2 !! l).
Proof.
  intros H. unfold stopBehavior.
  destruct (omap_get n (activeTimers s)); [|done]. simpl.
  destruct (behaviorStates s !! n); [|done]. by apply lookup_alter_is_Some.
Qed.

Lemma stop_disables n s timer l :
  omap_get n (activeTimers s) = Some timer →
  behaviorStates s !! n = Some l → is_Some (heap s !! l) →
  disabled_at l (stopBehavior n s).2.
Proof.
  intros Hget Hst [state Hl]. unfold stopBehavior, disabled_at.
  rewrite Hget, Hst. simpl. rewrite lookup_alter_eq, Hl. simpl.
  eexists. split; [done|]. apply getProp_insert_eq.
Qed.

(** The run-state a running behavior is registered with. *)
Lemma running_state s n timer :
  sched_inv s → omap_get n (activeTimers s) = Some timer →
  ∃ t state, (timer, t) ∈ live s ∧ tm_name t = n ∧
             behaviorStates s !! n = Some (tm_state t) ∧
             heap s !! tm_state t = Some state.
Proof.
  intros Hinv Hget.
  destruct (inv_active_live _ Hinv _ _ Hget) as (t & Hin & Hname).
  destruct (inv_state _ Hinv _ _ Hin) as [Hst [state Hheap]].
  rewrite Hname in Hst. by exists t, state.
Qed.

Lemma timers_of_empty s n :
  sched_inv s → omap_get n (activeTimers s) = None → timers_of n s = [].
Proof.
  intros Hinv Hnone. unfold timers_of.
  destruct (filter _ (live s)) as [|[id t] l] eqn:Hf; [done|].
  assert (Hin : (id, t) ∈ filter (λ p : nat * Timer, tm_name p.2 = n) (live s))
    by (rewrite Hf; apply list_elem_of_here).
  apply list_elem_of_filter in Hin as [Hn Hin]. simpl in Hn.
  apply (inv_live_active _ Hinv) in Hin. congruence.
Qed.

Section StopOne.
Context {World : Type}.
Variable tick : string → Bot → Config → World → Config * option string.

(** X1.  Stopping a running behavior cancels its timer and no other,
    keeps the run-state object registered under the name, and only sets
    [enabled] to false in it; [listBehaviors] then shows the behavior as not
    running, with the configuration it had. *)
Theorem stopBehavior_keeps_config (s : Sched) (n : string) (timer : nat) :
  sched_reachable tick s →
  omap_get n (activeTimers s) = Some timer →
  ∃ t state def,
    (timer, t) ∈ live s ∧ tm_name t = n ∧ findDef n = Some def ∧
    behaviorStates s !! n = Some (tm_state t) ∧
    heap s !! tm_state t = Some state ∧
    let r := stopBehavior n s in
    r.1 = Ok ("Behavior " +:+ quoted n +:+ " stopped.") ∧
    timers_of n r.2 = [] ∧
    (∀ timer' t', (timer', t') ∈ live s → timer' ≠ timer → (timer', t') ∈ live r.2) ∧
    behaviorStates r.2 = behaviorStates s ∧
    heap r.2 = <[tm_state t := <["enabled" := JBool false]> state]> (heap s) ∧
    {| l_name := n; l_description := description def; running := false;
       config := <["enabled" := JBool false]> state |} ∈ listBehaviors r.2.
Proof.
  intros Hinv%sched_reachable_inv Hget.
  destruct (running_state s n timer Hinv Hget) as (t & state & Hin & Hname & Hst & Hheap).
  destruct (inv_registered _ Hinv _ _ Hget) as [def Hdef].
  exists t, state, def. split_and!; try done. cbv zeta.
  pose proof (sched_inv_stop s n Hinv) as Hinv'.
  assert (Hstop : stopBehavior n s =
    (Ok ("Behavior " +:+ quoted n +:+ " stopped."),
     log Info ("[Auto] Stopped behavior: " +:+ n)
       {| _bot := _bot s; activeTimers := omap_delete n (activeTimers s);
          behaviorStates := behaviorStates s;
          heap := alter (λ st, <["enabled" := JBool false]> st) (tm_state t) (heap s);
          live := clearInterval timer (live s);
          next_timer := next_timer s; next_loc := next_loc s; logged := logged s |}))
    by (unfold stopBehavior; by rewrite Hget, Hst).
  rewrite Hstop in Hinv' |- *. cbn [fst snd]. split_and!; try done.
  - apply (timers_of_empty _ n Hinv'). cbn. apply omap_get_delete_eq.
  - intros timer' t' Hin' Hne. apply list_elem_of_filter. by split.
  - exact (alter_lookup_insert (λ st, <["enabled" := JBool false]> st) _ _ _ Hheap).
  - unfold listBehaviors. apply list_elem_of_fmap. exists def. split.
    + simpl. rewrite (findDef_name _ _ Hdef). rewrite Hst.
      rewrite lookup_alter_eq, Hheap. simpl.
      unfold omap_has. by rewrite omap_get_delete_eq.
    + unfold findDef in Hdef. apply find_some in Hdef as [Hdef _].
      by apply list_elem_of_In.
Qed.
End StopOne.

Lemma stopBehavior_keeps_config_witness :
  let s := run_ops failing_tick
             [OpInit 0; OpStart "guard" (Some (radius_config 8))] initial in
  (stopBehavior "guard" s).1 = Ok ("Behavior " +:+ quoted "guard" +:+ " stopped.") ∧
  timers_of "guard" (stopBehavior "guard" s).2 = [].
Proof.
  intros s.
  destruct (stopBehavior_keeps_config failing_tick s "guard" 0)
    as (t & state & def & _ & _ & _ & _ & _ & Hres & Htimers & _).
  - apply (run_ops_reachable failing_tick). constructor.
  - reflexivity.
  - by split.
Defined.

(** X2.  A second [stopBehavior] of the same name does nothing: it answers
    "is not running" and returns the state the first one left, whatever
    the state and the name. *)
Theorem stopBehavior_twice (s : Sched) (n : string) :
  stopBehavior n (stopBehavior n s).2 =
    (Ok ("Behavior " +:+ quoted n +:+ " is not running."), (stopBehavior n s).2).
Proof.
  unfold stopBehavior at 1.
  assert (Hgone : omap_get n (activeTimers (stopBehavior n s).2) = None).
  { unfold stopBehavior. destruct (omap_get n (activeTimers s)) eqn:Hget; [|done].
    simpl. apply omap_get_delete_eq. }
  by rewrite Hgone.
Qed.

(* ------------------------------------------------------------------ *)
(** ** Stopping everything *)

Lemma omap_delete_absent {V} (m : list (string * V)) k :
  omap_get k m = None → omap_delete k m = m.
Proof.
  induction m as [|[k0 v0] m IH]; simpl; [done|].
  destruct (String.eqb k0 k); [done|]. intros H. by rewrite IH.
Qed.

Lemma stop_activeTimers n s :
  activeTimers (stopBehavior n s).2 = omap_delete n (activeTimers s).
Proof.
  unfold stopBehavior. destruct (omap_get n (activeTimers s)) eqn:Hget; [done|].
  simpl. by rewrite omap_delete_absent.
Qed.

Lemma omap_keys_delete {V} (m : list (string * V)) k k' :
  k' ∈ omap_keys (omap_delete k m) → k' ∈ omap_keys m ∧ k' ≠ k.
Proof.
  unfold omap_keys. induction m as [|[k0 v0] m IH]; simpl; [by intros ?%elem_of_nil|].
  destruct (String.eqb k0 k) eqn:E.
  - intros [Hin Hne]%IH. split; [by apply list_elem_of_further | done].
  - intros [Heq|Hin]%elem_of_cons.
    + simpl in Heq. subst k'. split; [apply list_elem_of_here|].
      intros ->. by rewrite String.eqb_refl in E.
    + destruct (IH Hin). split; [by apply list_elem_of_further | done].
Qed.

(** Stopping every name of a list that covers the keys empties the map. *)
Lemma stop_fold_empties names s :
  (∀ k, k ∈ omap_keys (activeTimers s) → k ∈ names) →
  activeTimers (foldl (λ acc n, (stopBehavior n acc).2) s names) = [].
Proof.
  revert s. induction names as [|n names IH]; intros s Hcover; simpl.
  - destruct (activeTimers s) as [|[k v] m]; [done|].
    specialize (Hcover k). exfalso. eapply not_elem_of_nil, Hcover.
    apply list_elem_of_here.
  - apply IH. intros k Hk. rewrite stop_activeTimers in Hk.
    apply omap_keys_delete in Hk as [Hk Hne].
    apply Hcover in Hk. apply elem_of_cons in Hk as [->|Hk]; done.
Qed.

Lemma stop_fold_disables names s n timer l :
  n ∈ names →
  omap_get n (activeTimers s) = Some timer →
  behaviorStates s !! n = Some l → is_Some (heap s !! l) →
  disabled_at l (foldl (λ acc n', (stopBehavior n' acc).2) s names).
Proof.
  revert s. induction names as [|n0 names IH]; intros s Hin Hget Hst Hobj;
    [by apply elem_of_nil in Hin|].
  simpl. destruct (decide (n0 = n)) as [->|Hne].
  - apply (stop_fold_keeps (disabled_at l)); [intros; by apply stop_keeps_disabled|].
    by eapply stop_disables.
  - apply elem_of_cons in Hin as [->|Hin]; [done|]. apply IH; [done| | |].
    + by rewrite stop_other_handle.
    + by rewrite stop_behaviorStates.
    + by apply stop_keeps_objects.
Qed.

Section StopAll.
Context {World : Type}.
Variable tick : string → Bot → Config → World → Config * option string.

(** X3.  [stopAllBehaviors] leaves no timer, in [activeTimers] or with the
    runtime, and answers with the names that were running, in the order
    they were started.  Every run-state record stays registered, and
    those of the behaviors that were running have [enabled] false.  With
    nothing running it answers "No behaviors were running." and changes
    nothing. *)
Theorem stopAllBehaviors_stops_all (s : Sched) :
  sched_reachable tick s →
  let r := stopAllBehaviors s in
  activeTimers r.2 = [] ∧
  live r.2 = [] ∧
  _bot r.2 = _bot s ∧
  behaviorStates r.2 = behaviorStates s ∧
  r.1 = Ok (match activeTimers s with
            | [] => "No behaviors were running."
            | _ => "Stopped: " +:+ String.concat ", " (activeTimers s).*1
            end) ∧
  (activeTimers s = [] → r.2 = s) ∧
  (∀ n l, is_running n s → behaviorStates s !! n = Some l → disabled_at l r.2).
Proof.
  intros Hinv%sched_reachable_inv r.
  assert (Hempty : activeTimers r.2 = [])
    by (apply stop_fold_empties; by intros k Hk).
  split_and!.
  - done.
  - apply idle_no_live; [by apply sched_inv_stopAll | done].
  - apply stopAllBehaviors_bot.
  - apply (stop_fold_keeps (λ s', behaviorStates s' = behaviorStates s)); [|done].
    intros n s' <-. apply stop_behaviorStates.
  - subst r. unfold stopAllBehaviors, omap_keys. cbn [fst].
    by destruct (activeTimers s).
  - intros H. subst r. unfold stopAllBehaviors, omap_keys. by rewrite H.
  - intros n l [timer Hget]%omap_has_true Hst.
    destruct (running_state s n timer Hinv Hget) as (t & state & _ & _ & Hst' & Hheap).
    assert (l = tm_state t) as -> by congruence.
    apply (stop_fold_disables _ s n timer); [|done|done|by eexists].
    unfold omap_keys. apply omap_get_elem_of in Hget.
    apply list_elem_of_fmap. by exists (n, timer).
Qed.
End StopAll.

Lemma stopAllBehaviors_stops_all_witness :
  let s := run_ops failing_tick
             [OpInit 0; OpStart "patrol" None; OpStart "guard" None] initial in
  (stopAllBehaviors s).1 = Ok "Stopped: patrol, guard" ∧
  live (stopAllBehaviors s).2 = [].
Proof.
  intros s.
  destruct (stopAllBehaviors_stops_all failing_tick s)
    as (_ & Hlive & _ & _ & Hres & _).
  - apply (run_ops_reachable failing_tick). constructor.
  - split; [exact Hres | exact Hlive].
Defined.

(* ------------------------------------------------------------------ *)
(** ** Shutting down *)

Lemma shutdown_loop_disables fuel s n timer l :
  (length (activeTimers s) ≤ fuel)%nat →
  omap_get n (activeTimers s) = Some timer →
  behaviorStates s !! n = Some l → is_Some (heap s !! l) →
  disabled_at l (shutdown_loop fuel 0 s).
Proof.
  revert s. induction fuel as [|fuel IH]; intros s Hlen Hget Hst Hobj.
  - destruct (activeTimers s); [done | simpl in Hlen; lia].
  - simpl. destruct (activeTimers s) as [|[n0 id] rest] eqn:Hact; [done|]. simpl.
    assert (Hmap : activeTimers (stopBehavior n0 s).2 = omap_delete n0 rest).
    { rewrite stop_activeTimers, Hact. simpl. by rewrite String.eqb_refl. }
    rewrite Hmap.
    replace (omap_has n0 (omap_delete n0 rest)) with false
      by (symmetry; apply omap_has_false, omap_get_delete_eq).
    destruct (decide (n0 = n)) as [->|Hne].
    + apply (shutdown_loop_keeps (disabled_at l));
        [intros; by apply stop_keeps_disabled|].
      apply (stop_disables n s timer); [|done..]. by rewrite Hact.
    + apply (IH _).
      * rewrite Hmap. pose proof (omap_delete_length rest n0). simpl in Hlen. lia.
      * rewrite stop_other_handle by done. by rewrite Hact.
      * by rewrite stop_behaviorStates.
      * by apply stop_keeps_objects.
Qed.

Section Shutdown.
Context {World : Type}.
Variable tick : string → Bot → Config → World → Config * option string.

(** X4.  [shutdownAutonomous] forgets no configuration: every run-state
    record stays registered under its name, the records of the behaviors
    that were running get [enabled] false, and a later [initAutonomous]
    for a new session starts none of them again. *)
Theorem shutdown_keeps_run_states (s : Sched) (b : Bot) :
  sched_reachable tick s →
  let s' := shutdownAutonomous s in
  behaviorStates s' = behaviorStates s ∧
  (∀ l, is_Some (heap s !! l) → is_Some (heap s' !! l)) ∧
  (∀ n l, is_running n s → behaviorStates s !! n = Some l → disabled_at l s') ∧
  activeTimers (initAutonomous b s') = [] ∧
  live (initAutonomous b s') = [] ∧
  Forall (λ item, running item = false) (listBehaviors (initAutonomous b s')).
Proof.
  intros Hinv%sched_reachable_inv s'.
  assert (Hempty : activeTimers s' = []) by apply shutdown_activeTimers.
  split_and!.
  - subst s'. unfold shutdownAutonomous. cbn [behaviorStates set_bot].
    apply (shutdown_loop_keeps (λ s', behaviorStates s' = behaviorStates s)); [|done].
    intros n s' <-. apply stop_behaviorStates.
  - intros l Hl. subst s'. unfold shutdownAutonomous. cbn [heap set_bot].
    apply (shutdown_loop_keeps (λ s', is_Some (heap s' !! l))); [|done].
    intros n s'. apply stop_keeps_objects.
  - intros n l [timer Hget]%omap_has_true Hst.
    destruct (running_state s n timer Hinv Hget) as (t & state & _ & _ & Hst' & Hheap).
    assert (l = tm_state t) as -> by congruence.
    assert (Hloop : disabled_at (tm_state t)
                      (shutdown_loop (length (activeTimers s)) 0 s))
      by (apply (shutdown_loop_disables _ s n timer); [done|done|done|by eexists]).
    exact Hloop.
  - done.
  - apply (idle_no_live s'); [by apply sched_inv_shutdown | done].
  - by apply idle_lists_nothing_running.
Qed.
End Shutdown.

Lemma shutdown_keeps_run_states_witness :
  let s := run_ops failing_tick
             [OpInit 0; OpStart "guard" (Some (radius_config 8))] initial in
  behaviorStates (shutdownAutonomous s) !! "guard" = Some 0 ∧
  live (initAutonomous 1 (shutdownAutonomous s)) = [].
Proof.
  intros s.
  destruct (shutdown_keeps_run_states failing_tick s 1)
    as (Hst & _ & _ & _ & Hlive & _).
  - apply (run_ops_reachable failing_tick). constructor.
  - split; [by rewrite Hst | exact Hlive].
Defined.

(* ------------------------------------------------------------------ *)
(** ** Listing, patching and firing *)

Section ListAndFire.
Context {World : Type}.
Variable tick : string → Bot → Config → World → Config * option string.

(** X5.  [listBehaviors] answers with one entry per registered behavior,
    in registry order.  An entry says [running] exactly when the runtime
    holds a timer of that name, and then there is one; a behavior that was
    never started is shown with the defaults of its definition. *)
Theorem listBehaviors_matches_timers (s : Sched) :
  sched_reachable tick s →
  map l_name (listBehaviors s)
    = ["auto_eat"; "guard"; "auto_collect"; "auto_follow"; "patrol"] ∧
  ∀ item, item ∈ listBehaviors s →
    (running item = true ↔ length (timers_of (l_name item) s) = 1) ∧
    (behaviorStates s !! l_name item = None →
     running item = false ∧
     ∃ def, findDef (l_name item) = Some def ∧ config item = defaultConfig def).
Proof.
  intros Hinv%sched_reachable_inv. split; [done|].
  intros item Hitem. unfold listBehaviors in Hitem.
  apply list_elem_of_fmap in Hitem as (def & -> & Hdef). cbn [l_name running config].
  assert (Hfind : findDef (name def) = Some def).
  { apply list_elem_of_In in Hdef. simpl in Hdef.
    repeat destruct Hdef as [<-|Hdef]; try done. }
  split.
  - split.
    + intros [timer Hget]%omap_has_true.
      destruct (running_state s _ timer Hinv Hget) as (t & state & Hin & Hname & _).
      pose proof (at_most_one_timer s (name def) Hinv) as Hle.
      assert (Hmem : (timer, t) ∈ timers_of (name def) s)
        by (apply list_elem_of_filter; by split).
      destruct (timers_of (name def) s) as [|p [|q rest]]; simpl in *;
        [by apply elem_of_nil in Hmem | done | lia].
    + intros Hlen. apply omap_has_true.
      destruct (timers_of (name def) s) as [|[id t] rest] eqn:Hf; [done|].
      assert (Hmem : (id, t) ∈ timers_of (name def) s)
        by (rewrite Hf; apply list_elem_of_here).
      apply list_elem_of_filter in Hmem as [Hname Hin]. simpl in Hname.
      apply (inv_live_active _ Hinv) in Hin. rewrite Hname in Hin. by eexists.
  - intros Hnone. rewrite Hnone. split; [|by exists def].
    destruct (omap_has (name def) (activeTimers s)) eqn:Hrun; [|done].
    apply omap_has_true in Hrun as [timer Hget].
    destruct (running_state s _ timer Hinv Hget) as (t & state & _ & _ & Hst & _).
    congruence.
Qed.

(** What [startBehavior] does to a running behavior when overrides are
    given. *)
Lemma start_running_patches (s : Sched) (n : string) (ov : Config) (timer : nat) :
  sched_inv s → omap_get n (activeTimers s) = Some timer →
  ∃ t state b,
    (timer, t) ∈ live s ∧ tm_name t = n ∧ _bot s = Some b ∧
    heap s !! tm_state t = Some state ∧
    (startBehavior n (Some ov) s).2
      = set_heap (<[tm_state t := assign state ov]> (heap s)) s.
Proof.
  intros Hinv Hget.
  destruct (running_state s n timer Hinv Hget) as (t & state & Hin & Hname & Hst & Hheap).
  destruct (inv_registered _ Hinv _ _ Hget) as [def Hdef].
  destruct (_bot s) as [b|] eqn:Hb; [|by rewrite (inv_idle _ Hinv Hb) in Hget].
  exists t, state, b. split_and!; try done.
  unfold startBehavior. rewrite Hb, Hdef.
  replace (omap_has n (activeTimers s)) with true
    by (symmetry; apply omap_has_true; by eexists).
  rewrite Hst. cbn [snd].
  by rewrite (alter_lookup_insert (λ st, assign st ov) _ _ _ Hheap).
Qed.

(** X6.  Overrides given to a running behavior reach its tick without a
    restart: the next firing of the same timer calls the tick with the
    run-state merged with the overrides, and stores what that call
    leaves. *)
Theorem config_patch_reaches_tick (s : Sched) (n : string) (ov : Config)
    (timer : nat) (w : World) :
  sched_reachable tick s →
  omap_get n (activeTimers s) = Some timer →
  ∃ t state b,
    (timer, t) ∈ live s ∧ _bot s = Some b ∧ heap s !! tm_state t = Some state ∧
    let s1 := (startBehavior n (Some ov) s).2 in
    omap_get n (activeTimers s1) = Some timer ∧
    (truthy (getProp (assign state ov) "enabled") = true →
     heap (fire tick timer w s1)
       = <[tm_state t := (tick n b (assign state ov) w).1]> (heap s1)) ∧
    (truthy (getProp (assign state ov) "enabled") = false →
     fire tick timer w s1 = s1).
Proof.
  intros Hinv%sched_reachable_inv Hget.
  destruct (start_running_patches s n ov timer Hinv Hget)
    as (t & state & b & Hin & Hname & Hb & Hheap & Hstart).
  exists t, state, b. split_and!; try done. cbv zeta. rewrite Hstart.
  destruct (find_live s timer t Hinv Hin) as [i Hfind].
  split_and!; [done| |].
  - intros Hen. unfold fire. cbn [live set_heap]. rewrite Hfind.
    unfold timer_callback. cbn [_bot heap set_heap]. rewrite Hb, lookup_insert_eq, Hen.
    cbn [negb]. rewrite Hname.
    destruct (tick n b (assign state ov) w) as [state' [message|]]; done.
  - intros Hen. unfold fire. cbn [live set_heap]. rewrite Hfind.
    unfold timer_callback. cbn [_bot heap set_heap]. by rewrite Hb, lookup_insert_eq, Hen.
Qed.

(** X7.  Overrides win over the [enabled: true] that [startBehavior]
    writes first.  A behavior started with a falsy [enabled] among its
    overrides gets its timer and is listed as running, yet no firing of
    that timer calls the tick or changes anything. *)
Theorem start_with_enabled_off (s : Sched) (n : string) (ov : Config) (v : JsVal)
    (b : Bot) (def : BehaviorDef) :
  sched_reachable tick s →
  _bot s = Some b →
  findDef n = Some def →
  omap_has n (activeTimers s) = false →
  ov !! "enabled" = Some v →
  truthy v = false →
  let r := startBehavior n (Some ov) s in
  r.1 = Ok ("Behavior " +:+ quoted n +:+ " started.") ∧
  omap_get n (activeTimers r.2) = Some (next_timer s) ∧
  length (timers_of n r.2) = 1 ∧
  fire_ticks (next_timer s) r.2 = false ∧
  ∀ w, fire tick (next_timer s) w r.2 = r.2.
Proof.
  intros Hinv%sched_reachable_inv Hb Hdef Hrun Hov Hv r.
  pose proof (sched_inv_start s n (Some ov) Hinv) as Hinv'. fold r in Hinv'.
  assert (Hr : r =
    (Ok ("Behavior " +:+ quoted n +:+ " started."),
     log Info ("[Auto] Started behavior: " +:+ n)
       {| _bot := Some b;
          activeTimers := omap_set n (next_timer s) (activeTimers s);
          behaviorStates := <[n := next_loc s]> (behaviorStates s);
          heap := <[next_loc s :=
                      assign (assign {[ "enabled" := JBool true ]} (defaultConfig def)) ov]>
                    (heap s);
          live := live s ++ [(next_timer s, {| tm_name := n; tm_state := next_loc s;
                                               tm_interval := interval def |})];
          next_timer := S (next_timer s);
          next_loc := S (next_loc s);
          logged := logged s |}))
    by (subst r; unfold startBehavior; by rewrite Hb, Hdef, Hrun).
  clearbody r. subst r. cbn [fst snd] in *.
  set (t := {| tm_name := n; tm_state := next_loc s; tm_interval := interval def |}) in *.
  assert (Hin : (next_timer s, t) ∈
                  live (log Info ("[Auto] Started behavior: " +:+ n)
                    {| _bot := Some b;
                       activeTimers := omap_set n (next_timer s) (activeTimers s);
                       behaviorStates := <[n := next_loc s]> (behaviorStates s);
                       heap := <[next_loc s :=
                                   assign (assign {[ "enabled" := JBool true ]}
                                             (defaultConfig def)) ov]> (heap s);
                       live := live s ++ [(next_timer s, t)];
                       next_timer := S (next_timer s);
                       next_loc := S (next_loc s);
                       logged := logged s |}))
    by (cbn; apply elem_of_app; right; apply list_elem_of_here).
  destruct (find_live _ _ _ Hinv' Hin) as [i Hfind].
  assert (Hoff : truthy (getProp (assign (assign {[ "enabled" := JBool true ]}
                                         (defaultConfig def)) ov) "enabled") = false).
  { unfold getProp, assign. by rewrite (lookup_union_Some_l _ _ _ _ Hov). }
  split_and!.
  - done.
  - cbn. apply omap_get_set_eq.
  - pose proof (at_most_one_timer _ n Hinv') as Hle.
    assert (Hmem : (next_timer s, t) ∈ timers_of n
                     (log Info ("[Auto] Started behavior: " +:+ n)
                        {| _bot := Some b;
                           activeTimers := omap_set n (next_timer s) (activeTimers s);
                           behaviorStates := <[n := next_loc s]> (behaviorStates s);
                           heap := <[next_loc s :=
                                       assign (assign {[ "enabled" := JBool true ]}
                                                 (defaultConfig def)) ov]> (heap s);
                           live := live s ++ [(next_timer s, t)];
                           next_timer := S (next_timer s);
                           next_loc := S (next_loc s);
                           logged := logged s |}))
      by (apply list_elem_of_filter; by split).
    destruct (timers_of n _) as [|p [|q rest]]; simpl in *;
      [by apply elem_of_nil in Hmem | done | lia].
  - unfold fire_ticks. rewrite Hfind. cbn [_bot log heap tm_state t].
    by rewrite lookup_insert_eq.
  - intros w. unfold fire. rewrite Hfind. unfold timer_callback.
    cbn [_bot log heap tm_state t]. by rewrite lookup_insert_eq, Hoff.
Qed.
End ListAndFire.

Lemma listBehaviors_matches_timers_witness :
  map l_name (listBehaviors (run_ops failing_tick [OpInit 0; OpStart "guard" None] initial))
    = ["auto_eat"; "guard"; "auto_collect"; "auto_follow"; "patrol"].
Proof.
  destruct (listBehaviors_matches_timers failing_tick
              (run_ops failing_tick [OpInit 0; OpStart "guard" None] initial))
    as [H _]; [apply (run_ops_reachable failing_tick); constructor | exact H].
Defined.

Lemma config_patch_reaches_tick_witness :
  let s := run_ops failing_tick [OpInit 0; OpStart "guard" None] initial in
  omap_get "guard" (activeTimers (startBehavior "guard" (Some (radius_config 20)) s).2)
    = Some 0.
Proof.
  intros s.
  destruct (config_patch_reaches_tick failing_tick s "guard" (radius_config 20) 0 tt)
    as (t & state & b & _ & _ & _ & H & _).
  - apply (run_ops_reachable failing_tick). constructor.
  - reflexivity.
  - exact H.
Defined.

Lemma start_with_enabled_off_witness :
  let s := initAutonomous 0 initial in
  let ov := list_to_config [("enabled", JBool false)] in
  fire_ticks 0 (startBehavior "guard" (Some ov) s).2 = false.
Proof.
  intros s ov.
  destruct (start_with_enabled_off failing_tick s "guard" ov (JBool false) 0 guard_def)
    as (_ & _ & _ & H & _).
  - apply (sreach_op failing_tick initial (OpInit 0)), sreach_initial.
  - reflexivity.
  - reflexivity.
  - reflexivity.
  - reflexivity.
  - reflexivity.
  - exact H.
Defined.

(* ================================================================== *)
(** * More of the session manager *)

Lemma conn_inv_initial : conn_inv mc_initial.
Proof.
  split; simpl; try done; try constructor; intros;
    match goal with H : _ ∈ [] |- _ => by apply elem_of_nil in H end.
Qed.

Lemma conn_inv_log lvl msg c : conn_inv c → conn_inv (mc_log lvl msg c).
Proof. intros Hc. destruct Hc. by split. Qed.

Lemma conn_inv_create cfg c :
  conn_inv c → bot c = None → conn_inv (create_session cfg c).2.
Proof.
  intros Hc Hnone. split; simpl.
  - intros b Hb. congruence.
  - done.
  - intros b [Hb|Hb]%elem_of_app; rewrite fmap_app; apply elem_of_app.
    + left. by apply (ci_armed _ Hc).
    + right. apply list_elem_of_singleton in Hb as ->. apply list_elem_of_here.
  - intros b. rewrite fmap_app, length_app. simpl.
    intros [Hb|Hb]%elem_of_app.
    + apply (ci_fresh _ Hc) in Hb. lia.
    + apply list_elem_of_singleton in Hb as ->. lia.
  - intros b Hb. rewrite fmap_app. apply elem_of_app. left. by apply (ci_quitted _ Hc).
  - apply Hc.
  - intros b r Hb. rewrite fmap_app. apply elem_of_app. left.
    by apply (ci_settled_created _ Hc b r).
  - apply Hc.
Qed.

Lemma conn_inv_settle b r c :
  conn_inv c → b ∈ (created c).*1 →
  (∀ st, r = Ok st → status st = connected ∧ telemetry st = Some b) →
  conn_inv (settle b r c).
Proof.
  intros Hc Hb Hr. split; simpl; try apply Hc.
  - case_bool_decide; [apply Hc|]. rewrite fmap_app. apply NoDup_app.
    split_and!; [apply Hc| |apply NoDup_singleton].
    intros b' Hin Hnew. apply list_elem_of_singleton in Hnew. simpl in Hnew. by subst.
  - intros b' r'. case_bool_decide; [apply (ci_settled_created _ Hc)|].
    intros [Hin|Hin]%elem_of_app; [by apply (ci_settled_created _ Hc b' r')|].
    apply list_elem_of_singleton in Hin. by simplify_eq.
  - intros b' st. case_bool_decide; [apply (ci_resolved _ Hc)|].
    intros [Hin|Hin]%elem_of_app; [by apply (ci_resolved _ Hc)|].
    apply list_elem_of_singleton in Hin. simplify_eq. by apply Hr.
Qed.

Lemma conn_inv_spawned b c :
  conn_inv c → b ∈ (created c).*1 → conn_inv (set_session (Some b) connected c).
Proof.
  intros Hc Hb. split; simpl; try apply Hc; try done. by intros b' [= <-].
Qed.

Lemma conn_inv_ended c : conn_inv c → conn_inv (set_session None disconnected c).
Proof. intros Hc. split; simpl; try apply Hc; done. Qed.

Lemma conn_inv_disarm b c : conn_inv c → conn_inv (disarm_spawn b c).
Proof.
  intros Hc. split; simpl; try apply Hc.
  intros b' [_ Hin]%list_elem_of_filter. by apply (ci_armed _ Hc).
Qed.

Lemma conn_inv_quit b c : conn_inv c → b ∈ (created c).*1 → conn_inv (quit b c).
Proof.
  intros Hc Hb. split; simpl; try apply Hc.
  intros b' [Hin|Hin]%elem_of_app; [by apply (ci_quitted _ Hc)|].
  by apply list_elem_of_singleton in Hin as ->.
Qed.

Lemma conn_inv_on_error b message s :
  conn_inv (mc s) → b ∈ (created (mc s)).*1 →
  conn_inv (mc (McBot.on_error b message s)) ∧
  conn_inv (mc (McBotPlain.on_error b message s)).
Proof.
  intros Hc Hb. unfold McBot.on_error, McBotPlain.on_error.
  cbn [currentStatus mc_log].
  destruct (currentStatus (mc s)) eqn:Hst; cbn [mc];
    try (split; by apply conn_inv_log).
  assert (H : conn_inv (settle b (Throw message)
             (set_session (bot (mc_log Error ("[MC] Error: " +:+ message) (mc s)))
                disconnected (mc_log Error ("[MC] Error: " +:+ message) (mc s))))).
  { apply conn_inv_settle; [| done | done].
    destruct (bot (mc s)) as [b'|] eqn:Hbot.
    { destruct (ci_bot _ Hc _ Hbot). congruence. }
    split; simpl; try apply Hc; try done. by rewrite Hbot. }
  by split.
Qed.

Section SessionRuns.
Context {World : Type}.
Variable tick : string → Bot → Config → World → Config * option string.

Lemma conn_inv_step build e s :
  conn_inv (mc s) → conn_inv (mc (step tick build e s)).
Proof.
  intros Hc. destruct e; simpl; try done.
  - assert (H : conn_inv (mc (McBot.connect cfg s).2)).
    { unfold McBot.connect. destruct (bot (mc s)) eqn:Hb; [done|].
      simpl. by apply conn_inv_create. }
    by destruct build.
  - assert (H : conn_inv (mc (McBot.disconnect s).2)
                ∧ conn_inv (mc (McBotPlain.disconnect s).2)).
    { unfold McBot.disconnect, McBotPlain.disconnect.
      destruct (bot (mc s)) as [b|] eqn:Hb; [|done]. simpl.
      destruct (ci_bot _ Hc _ Hb) as [_ Hcr].
      split; by apply conn_inv_ended, conn_inv_quit. }
    destruct build; apply H.
  - case_bool_decide as Harmed; [|done].
    assert (Hcr : b ∈ (created (mc s)).*1) by by apply (ci_armed _ Hc).
    assert (H : conn_inv (settle b
                (Ok (snapshot (mc_log Info ("[MC] Bot spawned as " +:+
                       bot_username b (set_session (Some b) connected
                                         (disarm_spawn b (mc s))))
                     (set_session (Some b) connected (disarm_spawn b (mc s))))))
                (mc_log Info ("[MC] Bot spawned as " +:+
                       bot_username b (set_session (Some b) connected
                                         (disarm_spawn b (mc s))))
                   (set_session (Some b) connected (disarm_spawn b (mc s)))))).
    { apply conn_inv_settle; [| done |].
      - apply conn_inv_log, conn_inv_spawned; [by apply conn_inv_disarm | done].
      - intros st [= <-]. done. }
    by destruct build.
  - unfold is_created. case_bool_decide as Hcr; [|done].
    destruct build; by apply conn_inv_on_error.
  - unfold is_created. case_bool_decide as Hcr; [|done].
    destruct build; simpl; by apply conn_inv_ended, conn_inv_log.
  - unfold is_created. case_bool_decide as Hcr; [|done].
    destruct build; simpl; by apply conn_inv_log.
Qed.

Lemma reachable_conn_inv build s : reachable tick build s → conn_inv (mc s).
Proof.
  induction 1 as [|s e _ IH]; [apply conn_inv_initial | by apply conn_inv_step].
Qed.

(** X8.  In both builds the module holds a bot exactly when its status is
    "connected", and that bot is one [connect] created.  [snapshot()]
    therefore never reports "connecting": while a handshake is under way
    it answers with the zeroed "disconnected" record, and the actions
    refuse with the not-connected error exactly when the status is not
    "connected". *)
Theorem status_follows_bot (build : Build) (s : Sys) :
  reachable tick build s →
  (is_Some (bot (mc s)) ↔ currentStatus (mc s) = connected) ∧
  (∀ b, bot (mc s) = Some b → b ∈ (created (mc s)).*1) ∧
  status (snapshot (mc s)) ≠ connecting ∧
  (status (snapshot (mc s)) = connected ↔ currentStatus (mc s) = connected) ∧
  ((∃ b, getBotOrThrow (mc s) = Ok b) ↔ currentStatus (mc s) = connected).
Proof.
  intros Hc%reachable_conn_inv. unfold snapshot, getBotOrThrow.
  destruct (bot (mc s)) as [b|] eqn:Hb.
  - destruct (ci_bot _ Hc _ Hb) as [Hst Hcr]. rewrite Hst. simpl.
    split_and!; try done;
      first [ by intros b' [= <-] | split; [done | by eexists] ].
  - pose proof (ci_nobot _ Hc Hb) as Hst. simpl.
    split_and!; try done; split; first [ done | by intros [? ?] ].
Qed.

End SessionRuns.

Lemma status_follows_bot_witness :
  status (snapshot (mc (run failing_tick with_scheduler
                          [CallConnect local_config] sys_initial))) ≠ connecting.
Proof.
  destruct (status_follows_bot failing_tick with_scheduler
              (run failing_tick with_scheduler [CallConnect local_config] sys_initial))
    as (_ & _ & H & _); [apply (run_reachable failing_tick); constructor | exact H].
Defined.


(** X10.  [disconnect()] asks the bot it holds to quit, once, and forgets
    it; a second [disconnect()] answers "Already disconnected." and
    changes nothing.  This holds in every state, for both files. *)
Theorem disconnect_twice (s : Sys) :
  let r := McBot.disconnect s in
  let p := McBotPlain.disconnect s in
  bot (mc r.2) = None ∧
  currentStatus (mc r.2) = match bot (mc s) with
                           | Some _ => disconnected
                           | None => currentStatus (mc s)
                           end ∧
  quitted (mc r.2) = (quitted (mc s) ++ option_list (bot (mc s)))%list ∧
  r.1 = match bot (mc s) with Some _ => "Disconnected." | None => "Already disconnected." end ∧
  McBot.disconnect r.2 = ("Already disconnected.", r.2) ∧
  mc p.2 = mc r.2 ∧ p.1 = r.1 ∧
  McBotPlain.disconnect p.2 = ("Already disconnected.", p.2).
Proof.
  unfold McBot.disconnect, McBotPlain.disconnect.
  destruct (bot (mc s)) as [b|] eqn:Hb; simpl.
  - by split_and!.
  - rewrite Hb, app_nil_r. by split_and!.
Qed.

(* ================================================================== *)
(** * More of the actions *)

Section NotConnected.
Variables (g : Game) (a : Avatar).

(** X11.  With no bot held, every action refuses with the same
    not-connected error before it touches anything: no bot method is
    called, nothing is logged, no time passes. *)
Theorem actions_need_bot (c : Conn) (st : Act) :
  bot c = None →
  let refused := "Minecraft bot is not connected. Use minecraft_connect first." in
  (∀ x y z, Actions.moveTo g c x y z st = (Throw refused, st)) ∧
  (∀ x y z, Actions.digAt g c x y z st = (Throw refused, st)) ∧
  (∀ x y z, Actions.placeBlock g c x y z st = (Throw refused, st)) ∧
  (∀ n count, Actions.collectBlock g c n count st = (Throw refused, st)) ∧
  (∀ n count, Actions.craftItem g c n count st = (Throw refused, st)) ∧
  (∀ x y z, ActionsPlain.digAt g c x y z st = (Throw refused, st)) ∧
  (∀ m, BotActions.chat c m = (Throw refused, [])) ∧
  (∀ n, BotActions.followPlayer a c n = (Throw refused, [])) ∧
  BotActions.stopActions c = (Throw refused, []) ∧
  BotActions.listInventory a c = Throw refused ∧
  (∀ n d, BotActions.equipItem a c n d = (Throw refused, [])) ∧
  (∀ n k, BotActions.tossItem a c n k = (Throw refused, [])) ∧
  BotActions.listPlayers a c = Throw refused ∧
  BotActions.getTime a c = Throw refused ∧
  BotActions.getWeather a c = Throw refused ∧
  BotActions.attackNearest a c = Throw refused ∧
  (∀ n, BotActions.attackEntity a c n = Throw refused).
Proof.
  intros Hb refused.
  unfold Actions.moveTo, Actions.digAt, Actions.placeBlock, Actions.collectBlock,
    Actions.craftItem, ActionsPlain.digAt, BotActions.chat, BotActions.followPlayer,
    BotActions.stopActions, BotActions.listInventory, BotActions.equipItem,
    BotActions.tossItem, BotActions.listPlayers, BotActions.getTime,
    BotActions.getWeather, BotActions.attackNearest, BotActions.attackEntity,
    bind, lift, getBotOrThrow.
  rewrite Hb. by split_and!.
Qed.
End NotConnected.

Lemma actions_need_bot_witness :
  BotActions.equipItem sample_avatar idle_conn "beef" "hand"
    = (Throw "Minecraft bot is not connected. Use minecraft_connect first.", []).
Proof.
  destruct (actions_need_bot (vanishing_game goal_reached) sample_avatar idle_conn act_start)
    as (_ & _ & _ & _ & _ & _ & _ & _ & _ & _ & H & _); [reflexivity | apply H].
Defined.

(* ------------------------------------------------------------------ *)
(** ** Finding an item by part of its name *)

Lemma prefix_app (sub s : string) :
  String.prefix sub s = true ↔ ∃ post, s = sub +:+ post.
Proof.
  revert s. induction sub as [|ch sub IH]; intros s.
  - split; [intros _; by exists s | intros _; by destruct s].
  - destruct s as [|ch' s]; simpl.
    + split; [intros H; discriminate H | intros [post H]; discriminate H].
    + destruct (Ascii.ascii_dec ch ch') as [->|Hne].
      * rewrite IH. split; intros [post H]; exists post;
          [by rewrite H | by inversion H].
      * split; [intros H; discriminate H | intros [post H]; by inversion H].
Qed.

(** [includes] finds exactly the strings that have [sub] inside. *)
Lemma includes_app (s sub : string) :
  includes s sub = true ↔ ∃ pre post, s = pre +:+ sub +:+ post.
Proof.
  induction s as [|ch s IH]; cbn [includes].
  - rewrite orb_false_r, prefix_app. split.
    + intros [post H]. by exists EmptyString, post.
    + intros (pre & post & H). destruct pre; simpl in H; [by exists post | done].
  - rewrite orb_true_iff, prefix_app, IH. split.
    + intros [[post H]|(pre & post & H)].
      * by exists EmptyString, post.
      * exists (String ch pre), post. simpl. by rewrite H.
    + intros (pre & post & H). destruct pre as [|ch' pre]; simpl in H.
      * left. by exists post.
      * right. exists pre, post. by inversion H.
Qed.

Lemma find_first {A} (f : A → bool) (l : list A) (x : A) :
  find f l = Some x →
  ∃ before after, l = (before ++ x :: after)%list ∧ f x = true ∧
                  Forall (λ y, f y = false) before.
Proof.
  induction l as [|y l IH]; simpl; [done|].
  destruct (f y) eqn:Hy.
  - intros [= <-]. by exists [], l.
  - intros (before & after & -> & Hx & Hall)%IH.
    exists (y :: before), after. split_and!; [done..|]. by constructor.
Qed.

Section Inventory.
Variable a : Avatar.

(** X12.  [equipItem] and [tossItem] act on the first stack of the
    inventory whose name has [itemName] somewhere inside it, and give the
    bot that one command; with no such stack they throw "No ... in
    inventory." and give none.  [tossItem] tosses the whole stack whatever
    [count] it is given. *)
Theorem item_actions_take_first_match (c : Conn) (b : Bot)
    (itemName destination : string) (count : option Z) :
  bot c = Some b →
  match find (λ i, includes (it_name i) itemName) (a_items a) with
  | Some item =>
      (∃ before after pre post,
         a_items a = (before ++ item :: after)%list ∧
         it_name item = pre +:+ itemName +:+ post ∧
         Forall (λ i, ¬ ∃ pre' post', it_name i = pre' +:+ itemName +:+ post') before) ∧
      (BotActions.equipItem a c itemName destination).2 = [cmd_equip item destination] ∧
      (BotActions.tossItem a c itemName count).2 = [cmd_tossStack item] ∧
      (a_equip a item destination = None →
       (BotActions.equipItem a c itemName destination).1
         = Ok ("Equipped " +:+ it_name item +:+ " to " +:+ destination +:+ ".")) ∧
      (a_tossStack a item = None →
       (BotActions.tossItem a c itemName count).1
         = Ok ("Tossed " +:+ it_name item +:+ "."))
  | None =>
      Forall (λ i, ¬ ∃ pre post, it_name i = pre +:+ itemName +:+ post) (a_items a) ∧
      BotActions.equipItem a c itemName destination
        = (Throw ("No " +:+ quoted itemName +:+ " in inventory."), []) ∧
      BotActions.tossItem a c itemName count
        = (Throw ("No " +:+ quoted itemName +:+ " in inventory."), [])
  end.
Proof.
  intros Hb. unfold BotActions.equipItem, BotActions.tossItem, BotActions.find_item,
    getBotOrThrow. rewrite Hb.
  destruct (find _ (a_items a)) as [item|] eqn:Hfind.
  - apply find_first in Hfind as (before & after & Hitems & Hinc & Hall).
    apply includes_app in Hinc as (pre & post & Hname). split_and!.
    + exists before, after, pre, post. split_and!; [done..|].
      eapply Forall_impl; [exact Hall|]. intros i Hi Hex.
      apply includes_app in Hex. simpl in Hi. congruence.
    + by destruct (a_equip a item destination).
    + by destruct (a_tossStack a item).
    + by intros ->.
    + by intros ->.
  - split_and!; [|done..]. apply Forall_forall. intros i Hi Hex.
    apply includes_app in Hex.
    pose proof (find_none _ _ Hfind i) as Hnone. simpl in Hnone.
    rewrite Hnone in Hex; [done|]. by apply list_elem_of_In.
Qed.
End Inventory.

Lemma item_actions_take_first_match_witness :
  (BotActions.equipItem sample_avatar spawned_conn "beef" "hand").2
    = [cmd_equip {| it_name := "cooked_beef"; it_count := 3 |} "hand"].
Proof.
  pose proof (item_actions_take_first_match sample_avatar spawned_conn 0
                "beef" "hand" None eq_refl) as H.
  simpl in H. destruct H as (_ & H & _). exact H.
Defined.

(* ------------------------------------------------------------------ *)
(** ** The clock *)

Lemma padStart2_minutes (m : N) :
  (m < 60)%N →
  padStart2 (pretty m) = if (m <? 10)%N then "0" +:+ pretty m else pretty m.
Proof.
  intros Hm.
  assert (Hcases : m ∈ N.of_nat <$> seq 0 60).
  { apply list_elem_of_fmap. exists (N.to_nat m). split; [by rewrite N2Nat.id|].
    apply elem_of_seq. lia. }
  vm_compute in Hcases.
  repeat (apply elem_of_cons in Hcases as [->|Hcases]; [by vm_compute|]).
  by apply elem_of_nil in Hcases.
Qed.

(** X13.  [getTime] turns the tick count of the day into a clock that
    starts at 6:00: the hour is below 24 and is the thousand-tick slot
    shifted by six, the minute is below 60 and is the slot's remainder
    scaled to sixty (so the clock is at most 1000/60 ticks behind), the
    minute is printed with two digits, and the period is "Night" from
    tick 12000 on. *)
Theorem getTime_clock (a : Avatar) (c : Conn) (b : Bot) :
  bot c = Some b →
  let t := a_timeOfDay a in
  let h := time_hours t in
  let m := time_minutes t in
  (h < 24)%N ∧ (m < 60)%N ∧
  ((t / 1000) mod 24 = (h + 18) mod 24)%N ∧
  (50 * m ≤ 3 * (t mod 1000) < 50 * (m + 1))%N ∧
  BotActions.getTime a c =
    Ok {| gt_ticks := t;
          gt_display := pretty h +:+ ":"
                        +:+ (if (m <? 10)%N then "0" +:+ pretty m else pretty m);
          gt_period := if (t <? 12000)%N then "Day" else "Night" |}.
Proof.
  intros Hb t h m.
  assert (Hh : (h < 24)%N) by (apply N.mod_lt; lia).
  assert (Hm : (m < 60)%N).
  { subst m. unfold time_minutes. apply N.Div0.div_lt_upper_bound.
    pose proof (N.mod_lt t 1000). lia. }
  split_and!; try done.
  - subst h. unfold time_hours.
    rewrite N.Div0.add_mod_idemp_l.
    replace (t / 1000 + 6 + 18)%N with (t / 1000 + 1 * 24)%N by lia.
    by rewrite N.Div0.mod_add.
  - subst m. unfold time_minutes.
    pose proof (N.Div0.div_mod (t mod 1000 * 60) 1000) as Hdiv.
    pose proof (N.mod_lt (t mod 1000 * 60) 1000 ltac:(lia)) as Hlt.
    generalize dependent (t mod 1000 * 60 / 1000)%N.
    generalize dependent ((t mod 1000 * 60) mod 1000)%N.
    generalize dependent (t mod 1000)%N. clear. intros. lia.
  - subst m. unfold time_minutes.
    pose proof (N.Div0.div_mod (t mod 1000 * 60) 1000) as Hdiv.
    pose proof (N.mod_lt (t mod 1000 * 60) 1000 ltac:(lia)) as Hlt.
    generalize dependent (t mod 1000 * 60 / 1000)%N.
    generalize dependent ((t mod 1000 * 60) mod 1000)%N.
    generalize dependent (t mod 1000)%N. clear. intros. lia.
  - unfold BotActions.getTime, getBotOrThrow. rewrite Hb. fold t. fold h. fold m.
    rewrite (padStart2_minutes m Hm).
    replace (12000 <=? t)%N with (negb (t <? 12000)%N)
      by (destruct (N.ltb_spec t 12000), (N.leb_spec 12000 t); simpl; lia || done).
    by destruct (t <? 12000)%N.
Qed.

Lemma getTime_clock_witness :
  BotActions.getTime sample_avatar spawned_conn =
    Ok {| gt_ticks := 6000; gt_display := "12:00"; gt_period := "Day" |}.
Proof.
  destruct (getTime_clock sample_avatar spawned_conn 0 eq_refl) as (_ & _ & _ & _ & H).
  exact H.
Defined.

(* ------------------------------------------------------------------ *)
(** ** The attack loop *)

Section AttackLoop.
Variable entity : Entity.

Ltac settle_cases :=
  repeat split; intros;
    repeat match goal with
           | H : is_Some None |- _ => by destruct H
           | H : _ ∨ _ |- _ => destruct H
           end;
    try done; try (by eexists); auto.

Lemma attack_step_settled (e : AttackEvent) (st : AttackLoop) :
  (is_Some (al_resolved st) ↔ al_interval st = false) →
  let st' := BotActions.attack_step entity e st in
  (is_Some (al_resolved st') ↔ al_interval st' = false).
Proof.
  unfold BotActions.attack_step, BotActions.resolve_attack.
  destruct st as [[] [] [r|] cmds], e as [[] dist|]; simpl;
    try destruct (Qle_bool dist (inject_Z 4)); simpl;
    intros [H1 H2]; settle_cases.
Qed.

Lemma attack_run_snoc (events : list AttackEvent) (e : AttackEvent) (st : AttackLoop) :
  BotActions.attack_run entity (events ++ [e]) st
    = BotActions.attack_step entity e (BotActions.attack_run entity events st).
Proof. unfold BotActions.attack_run. by rewrite foldl_snoc. Qed.

Lemma attack_run_settled (events : list AttackEvent) :
  let st := BotActions.attack_run entity events BotActions.attackUntilDead in
  is_Some (al_resolved st) ↔ al_interval st = false.
Proof.
  induction events as [|e events IH] using rev_ind.
  - simpl. settle_cases.
  - cbv zeta. rewrite attack_run_snoc. by apply attack_step_settled.
Qed.

(** How a run from the start can have resolved, and whether the 60 s
    timer is still to come. *)
Lemma attack_run_shape (events : list AttackEvent) :
  let st := BotActions.attack_run entity events BotActions.attackUntilDead in
  (∀ r, al_resolved st = Some r →
        r = "Killed " +:+ BotActions.entity_label entity +:+ "." ∨
        r = "Stopped attacking " +:+ BotActions.entity_label entity +:+ " (timeout).") ∧
  al_deadline st = negb (deadline_among events).
Proof.
  induction events as [|e events IH] using rev_ind; [done|].
  cbv zeta in *. rewrite attack_run_snoc.
  destruct IH as [IHr IHd].
  unfold deadline_among in *. rewrite existsb_app. cbn [existsb].
  rewrite orb_false_r, negb_orb, <- IHd.
  set (s0 := BotActions.attack_run entity events BotActions.attackUntilDead) in *.
  clearbody s0.
  unfold BotActions.attack_step, BotActions.resolve_attack.
  destruct s0 as [[] [] [r0|] cmds], e as [[] dist|]; simpl in *;
    try destruct (Qle_bool dist (inject_Z 4)); simpl;
    (split; [intros r Hr; first [ by apply IHr | inversion Hr; subst; auto ] | done]).
Qed.

(** Once the interval is cleared, the only thing left to happen is the
    60 s timer. *)
Lemma attack_run_after_clear (events : list AttackEvent) (st : AttackLoop) (r : string) :
  al_interval st = false → al_resolved st = Some r →
  let st' := BotActions.attack_run entity events st in
  al_interval st' = false ∧ al_resolved st' = Some r ∧
  al_cmds st' =
    (al_cmds st ++ if al_deadline st && deadline_among events
                   then [cmd_stop] else [])%list ∧
  al_deadline st' = al_deadline st && negb (deadline_among events).
Proof.
  revert st. induction events as [|e events IH]; intros st Hi Hr.
  - simpl. by rewrite andb_false_r, app_nil_r, andb_true_r.
  - cbv zeta. change (BotActions.attack_run entity (e :: events) st)
      with (BotActions.attack_run entity events (BotActions.attack_step entity e st)).
    destruct e as [isValid dist|].
    + cbn [BotActions.attack_step]. rewrite Hi. cbn [negb].
      change (deadline_among (interval_fires isValid dist :: events))
        with (deadline_among events).
      by apply IH.
    + change (deadline_among (deadline_fires :: events)) with true.
      cbn [BotActions.attack_step]. destruct (al_deadline st) eqn:Hd; cbn [negb andb].
      * match goal with
        | |- context [BotActions.attack_run entity events ?s0] => set (st1 := s0)
        end.
        destruct (IH st1) as (H1 & H2 & H3 & H4);
          [done | subst st1; simpl; unfold BotActions.resolve_attack; by rewrite Hr |].
        rewrite H1, H2, H3, H4. subst st1. simpl. by rewrite app_nil_r.
      * destruct (IH st Hi Hr) as (H1 & H2 & H3 & H4).
        rewrite H1, H2, H3, H4, Hd. simpl. done.
Qed.

(** X14.  The promise of [attackUntilDead] resolves once, at the moment
    the interval is cleared: by a firing that finds the entity invalid
    ("Killed ...") or by the 60 s timer ("Stopped attacking ...
    (timeout)"), whichever runs first.  From then on the bot is given no
    attack and no chase.  The 60 s timer is not cancelled by a kill: when
    it runs later it stops the pathfinder once more. *)
Theorem attack_loop_resolves_once (before after : list AttackEvent) (r : string) :
  let st := BotActions.attack_run entity before BotActions.attackUntilDead in
  let st' := BotActions.attack_run entity (before ++ after) BotActions.attackUntilDead in
  al_resolved st = Some r →
  al_resolved st' = Some r ∧
  al_interval st' = false ∧
  (r = "Killed " +:+ BotActions.entity_label entity +:+ "." ∨
   r = "Stopped attacking " +:+ BotActions.entity_label entity +:+ " (timeout).") ∧
  al_cmds st' =
    (al_cmds st ++ if negb (deadline_among before) && deadline_among after
                   then [cmd_stop] else [])%list.
Proof.
  intros st st' Hr.
  pose proof (attack_run_settled before) as Hres. fold st in Hres.
  assert (Hi : al_interval st = false) by (apply Hres; by eexists).
  assert (Hst' : st' = BotActions.attack_run entity after st)
    by (subst st st'; unfold BotActions.attack_run; by rewrite foldl_app).
  destruct (attack_run_after_clear after st r Hi Hr) as (H1 & H2 & H3 & H4).
  rewrite <- Hst' in H1, H2, H3, H4.
  destruct (attack_run_shape before) as [Hr0 Hd0]. fold st in Hr0, Hd0.
  rewrite Hd0 in H3. split_and!; try done. by apply Hr0.
Qed.
End AttackLoop.

Lemma attack_loop_resolves_once_witness :
  al_cmds (BotActions.attack_run zombie
             [interval_fires true (inject_Z 9); interval_fires true (inject_Z 2);
              interval_fires false (inject_Z 2); interval_fires true (inject_Z 2);
              deadline_fires]
             BotActions.attackUntilDead)
    = [cmd_follow zombie 2; cmd_attack zombie; cmd_stop; cmd_stop].
Proof.
  pose proof (attack_loop_resolves_once zombie
                [interval_fires true (inject_Z 9); interval_fires true (inject_Z 2);
                 interval_fires false (inject_Z 2)]
                [interval_fires true (inject_Z 2); deadline_fires]
                "Killed zombie." eq_refl) as (_ & _ & _ & H).
  exact H.
Defined.

(* ------------------------------------------------------------------ *)
(** ** Collecting blocks *)

Section Collect.
Variable g : Game.

Lemma collect_one_count count collected pos st n st' :
  Actions.collect_one g count collected pos st = (Ok n, st') →
  n = collected ∨ n = S collected.
Proof.
  unfold Actions.collect_one, Actions.navigateTo, Actions.waitForGoal,
    Actions.blockAt, Actions.awaited, try_catch, bind, call, clock, resumed,
    ret, throw, act_log. simpl.
  destruct (g_blockAt g (now st) pos) as [block|]; [|intros [= <- _]; by left].
  destruct (is_air block); [intros [= <- _]; by left|]. simpl.
  destruct (Qle_bool _ _); simpl.
  - destruct (g_blockAt g (now st) pos) as [fresh|]; [|intros [= <- _]; by left].
    destruct (is_air fresh); [intros [= <- _]; by left|]. simpl.
    destruct (g_dig g (now st) fresh); simpl; intros [= <- _]; auto.
  - destruct (g_wait g (now st)); simpl; [| |intros [= <- _]; by left].
    + destruct (g_blockAt g (S (now st)) pos) as [fresh|]; [|intros [= <- _]; by left].
      destruct (is_air fresh); [intros [= <- _]; by left|]. simpl.
      destruct (g_dig g (S (now st)) fresh); simpl; intros [= <- _]; auto.
    + destruct (g_blockAt g (S (now st)) pos) as [fresh|]; [|intros [= <- _]; by left].
      destruct (is_air fresh); [intros [= <- _]; by left|]. simpl.
      destruct (g_dig g (S (now st)) fresh); simpl; intros [= <- _]; auto.
Qed.

Lemma collect_loop_count count positions collected st n st' :
  Actions.collect_loop g count collected positions st = (Ok n, st') →
  (collected ≤ n ≤ collected + length positions)%nat.
Proof.
  revert collected st. induction positions as [|pos rest IH]; intros collected st.
  - simpl. unfold ret. intros [= <- _]. lia.
  - simpl. unfold bind at 1.
    destruct (collect_one_returns g count collected pos st) as (k & st1 & Hone).
    rewrite Hone. intros Hloop%IH.
    apply collect_one_count in Hone as [->| ->]; lia.
Qed.

(** X15.  Once [findBlocks] has found positions, [collectBlock] does not
    throw, whatever happens at each of them: it answers "Collected n/m"
    where [m] is the number of positions found (not the count asked for)
    and [n], at most [m], is the number of blocks it dug.  It throws only
    for an unknown block name or when no position is found. *)
Theorem collectBlock_reports_partial (c : Conn) (b : Bot) (blockName : string)
    (count : Z) (st : Act) :
  bot c = Some b →
  match g_blocksByName g blockName with
  | None =>
      (Actions.collectBlock g c blockName count st).1
        = Throw ("Unknown block type: " +:+ blockName)
  | Some blockType =>
      match g_findBlocks g (now st) blockType 64 count with
      | [] =>
          (Actions.collectBlock g c blockName count st).1
            = Throw ("No " +:+ blockName +:+ " found within 64 blocks.")
      | positions =>
          ∃ n, (n ≤ length positions)%nat ∧
               (Actions.collectBlock g c blockName count st).1
                 = Ok ("Collected " +:+ pretty n +:+ "/" +:+ pretty (length positions)
                       +:+ " " +:+ blockName +:+ ".")
      end
  end.
Proof.
  intros Hb. unfold Actions.collectBlock, bind, lift, getBotOrThrow, call, clock.
  rewrite Hb.
  destruct (g_blocksByName g blockName) as [blockType|]; [|done]. cbn [now].
  destruct (g_findBlocks g (now st) blockType 64 count) as [|pos rest] eqn:Hpos;
    [done|].
  destruct (collect_loop_returns g count (pos :: rest) 0
              {| now := now st; calls := calls st ++ [c_findBlocks blockType 64 count];
                 act_logged := act_logged st |}) as (n & st' & Hloop).
  exists n. rewrite Hloop. apply collect_loop_count in Hloop. split; [lia|done].
Qed.
End Collect.

Lemma collectBlock_reports_partial_witness :
  ∃ n, (n ≤ 1)%nat ∧
       (Actions.collectBlock (vanishing_game timed_out) spawned_conn "stone" 5 act_start).1
         = Ok ("Collected " +:+ pretty n +:+ "/" +:+ pretty 1%nat +:+ " stone.").
Proof.
  exact (collectBlock_reports_partial (vanishing_game timed_out) spawned_conn 0
           "stone" 5 act_start eq_refl).
Defined.

(* ================================================================== *)
(** * More of the chat-command handler *)

Section ChatParsing.
Import ChatCommands.

Lemma prefix_of_app (p w : string) : String.prefix p (p +:+ w) = true.
Proof. apply prefix_app. by exists w. Qed.

Lemma slice_app (p w : string) : slice (String.length p) (p +:+ w) = w.
Proof. induction p as [|ch p IH]; simpl; [by destruct w | done]. Qed.

(** Each name and alias of the table is one lowercase word that resolves
    to its own command. *)
Lemma word_resolves (cmd : ChatCommand) (word : string) :
  cmd ∈ commands → word ∈ name cmd :: aliases cmd →
  split_ws (trim word) = [word] ∧ toLowerCase word = word ∧ nonempty word = true ∧
  find (λ c, String.eqb (name c) (default word (aliasMap !! word))) commands = Some cmd.
Proof.
  intros Hcmd Hword. apply list_elem_of_In in Hcmd. simpl in Hcmd.
  repeat destruct Hcmd as [<-|Hcmd]; try done;
    apply list_elem_of_In in Hword; simpl in Hword;
    repeat destruct Hword as [<-|Hword]; try done;
    by vm_compute.
Qed.

(** X16.  Every command of the table is reached by its name and by each
    of its aliases: no alias hides a command name or another alias.  A
    message made of the prefix and such a word, from anyone but the bot
    itself, runs that command with no arguments, unless the command is
    owner-only, an owner is set, and the sender is someone else. *)
Theorem every_alias_dispatches (botUsername prefix owner sender : string)
    (whisper : bool) (cmd : ChatCommand) (word : string) :
  cmd ∈ commands →
  word ∈ name cmd :: aliases cmd →
  sender ≠ botUsername →
  (ownerOnly cmd = true → owner = EmptyString ∨ sender = owner) →
  handleMessage botUsername prefix owner sender (prefix +:+ word) whisper
    = execute cmd sender []
        (λ msg, if whisper then bot_whisper sender msg else bot_chat msg).
Proof.
  intros Hcmd Hword Hself Hallowed.
  destruct (word_resolves cmd word Hcmd Hword) as (Hparts & Hlower & Hne & Hfind).
  unfold handleMessage.
  rewrite (eqb_false_ne _ _ Hself), prefix_of_app, slice_app, Hparts.
  cbv zeta. cbn [negb hd tl]. rewrite Hlower, Hne. cbn [negb]. rewrite Hfind.
  destruct (ownerOnly cmd) eqn:Hoo; [|done].
  destruct (Hallowed eq_refl) as [->| ->]; [done|].
  by rewrite String.eqb_refl, andb_false_r.
Qed.
End ChatParsing.

Lemma every_alias_dispatches_witness :
  ChatCommands.handleMessage "OpenClaw" "!" "alice" "bob" "!gather" true
    = [ChatCommands.command_body "collect" "bob" []].
Proof.
  apply (every_alias_dispatches "OpenClaw" "!" "alice" "bob" true
           (ChatCommands.game_command "collect" ["gather"]) "gather").
  - vm_compute. do 13 apply list_elem_of_further. apply list_elem_of_here.
  - apply list_elem_of_further, list_elem_of_here.
  - discriminate.
  - discriminate.
Defined.

Section ChatWords.
Import ChatCommands.











End ChatWords.


(* ================================================================== *)
(** * A new session under running behaviors *)

Section Rebind.
Context {World : Type}.
Variable tick : string → Bot → Config → World → Config * option string.

(** X18.  [initAutonomous] only replaces the session reference: the
    timers, their handles and the run-states stay.  The callback reads
    the reference when it fires, so a behavior that is running when a
    second bot spawns goes on ticking, from its next firing, on the new
    bot. *)
Theorem init_rebinds_running_ticks (s : Sched) (b' : Bot) (timer : nat) (t : Timer)
    (state : Config) (w : World) :
  sched_reachable tick s →
  (timer, t) ∈ live s →
  heap s !! tm_state t = Some state →
  truthy (getProp state "enabled") = true →
  let s1 := initAutonomous b' s in
  live s1 = live s ∧ activeTimers s1 = activeTimers s ∧
  behaviorStates s1 = behaviorStates s ∧ heap s1 = heap s ∧
  fire_ticks timer s1 = true ∧
  heap (fire tick timer w s1)
    = <[tm_state t := (tick (tm_name t) b' state w).1]> (heap s).
Proof.
  intros Hinv%sched_reachable_inv Hin Hheap Hen s1.
  destruct (find_live s timer t Hinv Hin) as [i Hfind].
  subst s1. unfold initAutonomous, set_bot. split_and!; try done.
  - unfold fire_ticks. cbn [live _bot heap]. by rewrite Hfind, Hheap.
  - unfold fire. cbn [live]. rewrite Hfind.
    unfold timer_callback. cbn [_bot heap]. rewrite Hheap, Hen. cbn [negb].
    by destruct (tick (tm_name t) b' state w) as [state' [message|]].
Qed.
End Rebind.

Lemma init_rebinds_running_ticks_witness :
  let s := run_ops failing_tick [OpInit 0; OpStart "guard" None] initial in
  fire_ticks 0 (initAutonomous 1 s) = true.
Proof.
  intros s.
  destruct (init_rebinds_running_ticks failing_tick s 1 0
              {| tm_name := "guard"; tm_state := 0; tm_interval := 500 |}
              (list_to_config [("enabled", JBool true); ("radius", JNum 16)]) tt)
    as (_ & _ & _ & _ & H & _).
  - apply (run_ops_reachable failing_tick). constructor.
  - vm_compute. apply list_elem_of_here.
  - vm_compute. reflexivity.
  - reflexivity.
  - exact H.
Defined.

(* ================================================================== *)
(** * The patrol tick *)

Section Patrol.
Variable dist : Vec3 → Q.


End Patrol.

